(** * Matrix chain multiplication optimizer

    A shallow embedding of [Matrix_Chain_Multiplication_Optimizer.cpp]
    (class [MatrixChainOptimizer]) and the properties of its dynamic
    programme, of the reconstruction of the parenthesization and of the
    Catalan counter.

    Conventions of the embedding.
    - A C++ [int] that holds a cost or a dimension is a [Z]; every [+] and [*]
      on it is followed by the reduction to 32 bits, two's complement
      ([wrap32]).  A [long long] is a [Z] reduced to 64 bits ([wrap64]).
      C++ leaves signed overflow undefined; the reduction is what the usual
      compilers produce.  The theorems that assume that no cost leaves the
      range do not depend on this choice: no reduction changes a value there.
    - A C++ [int] that is a loop counter or an index ([i], [j], [k], [L], the
      field [n], and the entries of the split table [s], which are copies of
      [k]) is a [nat]: these never leave [0 .. n].
    - [vector<vector<int>>] is a list of rows; [v[i]] on a vector is the total
      lookup [!!!].  An access out of range is undefined in C++: here a read
      gives the fixed default of the type and a store does nothing.  The loops
      of the class never leave the tables ([computeOptimalOrder_spec] rests on
      every store being in range).
    - [ostream&] is the text written so far; [out << x] appends.
    - A [for] loop is a left fold of its body over the list of the values of
      its counter. *)

From Stdlib Require Import ZArith Lia DecimalString Ascii.
From stdpp Require Import base numbers list strings.

Local Open Scope Z_scope.

(** ** Machine integers *)

(** [INT_MAX] of [<climits>], for the [int] of 32 bits of the usual
    platforms; [LLONG_MAX] for the [long long] of 64 bits. *)
Definition INT_MAX : Z := 2147483647.

Definition wrap32 (z : Z) : Z := (z + 2 ^ 31) `mod` 2 ^ 32 - 2 ^ 31.
Definition add32 (a b : Z) : Z := wrap32 (a + b).
Definition mul32 (a b : Z) : Z := wrap32 (a * b).

Definition LLONG_MAX : Z := 9223372036854775807.

Definition wrap64 (z : Z) : Z := (z + 2 ^ 63) `mod` 2 ^ 64 - 2 ^ 63.
Definition add64 (a b : Z) : Z := wrap64 (a + b).
Definition mul64 (a b : Z) : Z := wrap64 (a * b).

(** ** Two-dimensional tables: [vector<vector<T>>] *)

Abbreviation table A := (list (list A)).

(** [t[i][j]] as an rvalue. *)
Definition tget {A} `{!Inhabited A} (t : table A) (i j : nat) : A :=
  (t !!! i) !!! j.

(** [t[i][j] = v]. *)
Definition tset {A} (t : table A) (i j : nat) (v : A) : table A :=
  alter (λ row, <[j := v]> row) i t.

(** A table of [N] rows of [N] cells. *)
Definition square {A} (N : nat) (t : table A) : Prop :=
  length t = N ∧ ∀ i row, t !! i = Some row → length row = N.

(** [out << i] for a non-negative [int]: its decimal digits. *)
Definition decimal (i : nat) : string := NilEmpty.string_of_uint (Nat.to_uint i).

(** [out << v] for an [int] or a [long long]: the decimal digits, after a
    minus sign for a negative value. *)
Definition decimalZ (z : Z) : string := NilEmpty.string_of_int (Z.to_int z).

(** The characters written as [\n] and [\t] in the source; [endl] writes the
    first (and flushes). *)
Definition nl : string := String "010"%char EmptyString.
Definition tab : string := String "009"%char EmptyString.

Definition sub32 (a b : Z) : Z := wrap32 (a - b).

(** ** The class *)

Module MatrixChainOptimizer.

Record t : Type := Build
  { P : list Z;        (* vector<int> P *)
    m : table Z;       (* vector<vector<int>> m *)
    s : table nat;     (* vector<vector<int>> s *)
    n : nat            (* int n *) }.

(** The constructor.  [n = dims.size() - 1], and both tables are resized to
    [n + 1 = dims.size()] rows of as many zeros.  (For an empty [dims] the
    C++ [n] is -1 and the tables are empty; here [n] is 0 and the tables are
    empty: no loop of the class runs in either case.) *)
Definition make (dims : list Z) : t :=
  {| P := dims;
     n := length dims - 1;
     m := replicate (length dims) (replicate (length dims) 0);
     s := replicate (length dims) (replicate (length dims) 0%nat) |}.

(** [int q = m[i][k] + m[k + 1][j] + P[i - 1] * P[k] * P[j];] *)
Definition candidate (P : list Z) (m : table Z) (i j k : nat) : Z :=
  add32 (add32 (tget m i k) (tget m (k + 1) j))
        (mul32 (mul32 (P !!! (i - 1)%nat) (P !!! k)) (P !!! j)).

(** The body of the loop on [k]. *)
Definition split_step (P : list Z) (i j : nat)
    (ms : table Z * table nat) (k : nat) : table Z * table nat :=
  let q := candidate P ms.1 i j k in
  if q <? tget ms.1 i j then (tset ms.1 i j q, tset ms.2 i j k) else ms.

(** The body of the loop on [i], for the chain length [L]. *)
Definition interval_step (P : list Z) (L : nat)
    (ms : table Z * table nat) (i : nat) : table Z * table nat :=
  let j := (i + L - 1)%nat in
  foldl (split_step P i j) (tset ms.1 i j INT_MAX, ms.2) (seq i (j - i)).

(** The body of the loop on [L]. *)
Definition length_step (P : list Z) (n : nat)
    (ms : table Z * table nat) (L : nat) : table Z * table nat :=
  foldl (interval_step P L) ms (seq 1 (n - L + 1)).

Definition computeOptimalOrder (o : t) : t :=
  let m0 := foldl (λ m i, tset m i i 0) (m o) (seq 1 (n o)) in
  let ms := foldl (length_step (P o) (n o)) (m0, s o) (seq 2 (n o - 1)) in
  {| P := P o; m := ms.1; s := ms.2; n := n o |}.

(** The recursion of [printOptimalParenthesis] is not structural: it follows
    the split table.  [fuel] bounds the depth of the calls; [None] is a run
    that needs more. *)
Fixpoint printOptimalParenthesis (fuel : nat) (o : t) (i j : nat)
    (out : string) : option string :=
  match fuel with
  | O => None
  | S fuel =>
      if (i =? j)%nat then Some (out +:+ "A" +:+ decimal i)
      else
        out ← printOptimalParenthesis fuel o i (tget (s o) i j) (out +:+ "(");
        out ← printOptimalParenthesis fuel o (tget (s o) i j + 1) j
                (out +:+ " x ");
        Some (out +:+ ")")
  end.

Definition getMinCost (o : t) : Z := tget (m o) 1 (n o).

(** The body of the loop on [j] of [catalanNumber]:
    [cat[i] += cat[j] * cat[i - j - 1]]. *)
Definition catalan_step (i : nat) (cat : list Z) (j : nat) : list Z :=
  <[i := add64 (cat !!! i) (mul64 (cat !!! j) (cat !!! (i - j - 1)%nat))]> cat.

Definition catalan_table (N : nat) : list Z :=
  let cat := replicate (N + 1) 0 in
  let cat := <[1%nat := 1]> cat in
  let cat := <[0%nat := cat !!! 1%nat]> cat in
  foldl (λ cat i, foldl (catalan_step i) cat (seq 0 i)) cat (seq 2 (N - 1)).

Definition catalanNumber (n : Z) : Z :=
  if n <=? 1 then 1 else catalan_table (Z.to_nat n) !!! Z.to_nat n.

(** One row of the table [m] on [cout]: the loop on [j] and the [endl]. *)
Definition display_m_row (o : t) (cout : string) (i : nat) : string :=
  foldl (λ cout j, if (j <? i)%nat then cout +:+ "   -   "
                   else cout +:+ decimalZ (tget (m o) i j) +:+ tab)
        cout (seq 1 (n o))
  +:+ nl.

(** One row of the table [s]. *)
Definition display_s_row (o : t) (cout : string) (i : nat) : string :=
  foldl (λ cout j, if (j <=? i)%nat then cout +:+ "  -  "
                   else cout +:+ decimal (tget (s o) i j) +:+ tab)
        cout (seq 1 (n o))
  +:+ nl.

Definition displayTables (o : t) (show : bool) (cout : string) : string :=
  if negb show then cout
  else
    let cout := cout +:+ nl +:+ "Table m (costs):" +:+ nl in
    let cout := foldl (display_m_row o) cout (seq 1 (n o)) in
    let cout := cout +:+ nl +:+ "Table s (splits):" +:+ nl in
    foldl (display_s_row o) cout (seq 1 (n o)).

(** [saveToFile(filename)].  [opened] tells whether [ofstream fout(filename)]
    could open the file: if not, every [fout << x] is without effect (the
    calls of [printOptimalParenthesis] are made all the same) and no file is
    written; the method does not test the stream.  The result is the content
    of the file, if one was written, and [cout]. *)
Definition saveToFile (fuel : nat) (o : t) (filename : string)
    (opened : bool) (cout : string) : option (option string * string) :=
  let fout := "Matrix dimensions (P): " in
  let fout := foldl (λ fout p, fout +:+ decimalZ p +:+ " ") fout (P o) in
  let fout := fout +:+ nl +:+ nl +:+ "Minimum multiplication cost: "
                   +:+ decimalZ (tget (m o) 1 (n o)) +:+ nl in
  let fout := fout +:+ "Optimal parenthesization: " in
  fout ← printOptimalParenthesis fuel o 1 (n o) fout;
  let fout := fout +:+ nl +:+ "Catalan number (n = " +:+ decimal (n o)
                   +:+ "): " +:+ decimalZ (catalanNumber (Z.of_nat (n o)))
                   +:+ nl in
  Some (if opened then Some fout else None,
        cout +:+ nl +:+ "Results saved to file: " +:+ filename +:+ nl).

Definition printOptimalParenthesisToConsole (fuel : nat) (o : t)
    (cout : string) : option string :=
  cout ← printOptimalParenthesis fuel o 1 (n o) cout;
  Some (cout +:+ nl).

End MatrixChainOptimizer.

Import MatrixChainOptimizer.

(** The object after construction from [dims] and one call of
    [computeOptimalOrder], as [main] does. *)
Definition run (dims : list Z) : t := computeOptimalOrder (make dims).

Arguments run : simpl never.
Arguments computeOptimalOrder : simpl never.

(** ** The free functions

    [rand()] is the sequence [rand 0], [rand 1], ... of the values that its
    successive calls return (what [srand(time(0))] makes of it is not known);
    the state is the number of calls made so far. *)

(** [generateRandomDimensions(n, minDim, maxDim)], from the [c]-th call of
    [rand()] on.  [None] where C++ gives no result: [vector<int> P(n + 1)]
    with a negative [n + 1] throws, and [%] by zero is undefined.  [%]
    truncates towards zero ([Z.rem]). *)
Definition generateRandomDimensions (rand : nat → Z) (c : nat)
    (n minDim maxDim : Z) : option (list Z * nat) :=
  let size := add32 n 1 in
  let d := add32 (sub32 maxDim minDim) 1 in
  if size <? 0 then None
  else if (0 <? size) && (d =? 0) then None
  else
    Some (foldl (λ P i, <[i := add32 minDim (Z.rem (rand (c + i)%nat) d)]> P)
                (replicate (Z.to_nat size) 0) (seq 0 (Z.to_nat size)),
          (c + Z.to_nat size)%nat).

(** What the extractions [cin >> x] of [main] yield, in the order of the
    program: the mode, then (manual mode) the number of matrices and the
    entries of [P], then the answer to the last question. *)
Record input : Type := Input
  { in_mode : Z;
    in_numMatrices : Z;
    in_P : nat → Z;
    in_showTables : ascii }.

(** The two branches of [main] that set [numMatrices] and [P], with what they
    write on [cout]. *)
Definition main_input (rand : nat → Z) (cin : input) (cout : string)
    : option (Z * list Z * string) :=
  if in_mode cin =? 1 then
    let cout := cout +:+ "Enter number of matrices: " in
    let numMatrices := in_numMatrices cin in
    let size := add32 numMatrices 1 in
    let cout := cout +:+ "Enter dimensions array P (size = "
                     +:+ decimalZ size +:+ "):" +:+ nl in
    if size <? 0 then None
    else
      Some (numMatrices,
            foldl (λ P i, <[i := in_P cin i]> P)
                  (replicate (Z.to_nat size) 0) (seq 0 (Z.to_nat size)),
            cout)
  else
    let numMatrices := add32 5 (Z.rem (rand 0%nat) 11) in
    '(P, _) ← generateRandomDimensions rand 1 numMatrices 1 1000;
    let cout := cout +:+ "Randomly generated " +:+ decimalZ numMatrices
                     +:+ " matrices." +:+ nl +:+ "Dimensions P: " in
    let cout := foldl (λ cout val, cout +:+ decimalZ val +:+ " ") cout P in
    Some (numMatrices, P, cout +:+ nl).

(** [main].  The result is what it has written on [cout] and the content of
    the file, if one was written.  [None] where C++ gives no result: the
    cases of [main_input], a [P] of fewer than two entries (for which
    [getMinCost] reads [m[1][n]] outside the table), and a reconstruction
    that does not return. *)
Definition main (fuel : nat) (rand : nat → Z) (cin : input) (opened : bool)
    : option (string * option string) :=
  let cout := "Matrix Chain Multiplication" +:+ nl in
  let cout := cout +:+ "1. Manual input" +:+ nl in
  let cout := cout +:+ "2. Random input" +:+ nl in
  let cout := cout +:+ "Choose input mode (1 or 2): " in
  '(numMatrices, P, cout) ← main_input rand cin cout;
  if (length P <? 2)%nat then None
  else
    let optimizer := computeOptimalOrder (make P) in
    let cout := cout +:+ nl +:+ "Minimum number of multiplications: "
                     +:+ decimalZ (getMinCost optimizer) +:+ nl in
    let cout := cout +:+ "Optimal parenthesization: " in
    cout ← printOptimalParenthesisToConsole fuel optimizer cout;
    let cout := cout +:+ "Catalan number: "
                     +:+ decimalZ (catalanNumber numMatrices) +:+ nl in
    let cout := cout +:+ nl +:+ "Show DP tables? (y/n): " in
    let cout :=
      if bool_decide (in_showTables cin = "y"%char
                      ∨ in_showTables cin = "Y"%char)
      then displayTables optimizer true cout else cout in
    '(file, cout) ← saveToFile fuel optimizer "matrix_chain_output.txt"
                      opened cout;
    Some (cout, file).

(** [printOptimalParenthesis(i, j, out)] returns, having written [out'] where
    [out] was. *)
Definition writes (o : t) (i j : nat) (out out' : string) : Prop :=
  ∃ fuel, printOptimalParenthesis fuel o i j out = Some out'.

(** The text that [printOptimalParenthesis(i, j, _)] adds to any stream. *)
Definition renders (o : t) (i j : nat) (txt : string) : Prop :=
  ∀ out, writes o i j out (out +:+ txt).

(** ** Parenthesizations and the cost of a chain

    The notions that the specification speaks of, in exact arithmetic: the
    full parenthesizations of a chain, their cost, the least cost and the
    recurrence for it. *)

Inductive paren : Type :=
  | Leaf (i : nat)
  | Prod (l r : paren).

Fixpoint lo (e : paren) : nat :=
  match e with Leaf i => i | Prod l _ => lo l end.

Fixpoint hi (e : paren) : nat :=
  match e with Leaf i => i | Prod _ r => hi r end.

(** [spans e i j]: [e] is a full parenthesization of [A_i ... A_j]. *)
Inductive spans : paren → nat → nat → Prop :=
  | spans_Leaf i : spans (Leaf i) i i
  | spans_Prod l r i k j :
      spans l i k → spans r (k + 1) j → spans (Prod l r) i j.

(** Scalar multiplications of [e], in exact arithmetic: the product of a
    [P[i-1] x P[k]] matrix with a [P[k] x P[j]] one takes
    [P[i-1] * P[k] * P[j]] of them. *)
Fixpoint cost (P : list Z) (e : paren) : Z :=
  match e with
  | Leaf _ => 0
  | Prod l r =>
      cost P l + cost P r
      + (P !!! (lo l - 1)%nat) * (P !!! hi l) * (P !!! hi r)
  end.

Definition is_min_cost (P : list Z) (i j : nat) (c : Z) : Prop :=
  (∃ e, spans e i j ∧ cost P e = c) ∧ ∀ e, spans e i j → c ≤ cost P e.

(** [v] is the least of [f i, ..., f (j - 1)]. *)
Definition is_min_over (f : nat → Z) (i j : nat) (v : Z) : Prop :=
  (∃ k, (i ≤ k < j)%nat ∧ f k = v) ∧ ∀ k, (i ≤ k < j)%nat → v ≤ f k.

(** [k] is the first index of [i .. j - 1] at which [f] is [v]. *)
Definition is_first_at (f : nat → Z) (i j : nat) (v : Z) (k : nat) : Prop :=
  (i ≤ k < j)%nat ∧ f k = v ∧ ∀ k', (i ≤ k' < k)%nat → f k' ≠ v.

Definition list_min (l : list Z) : Z :=
  match l with [] => 0 | x :: l => foldl Z.min x l end.

(** The recurrence of the optimal cost in exact arithmetic.  The recursion is
    on the length of the interval; [fuel] stands for it. *)
Fixpoint opt_fuel (fuel : nat) (P : list Z) (i j : nat) : Z :=
  match fuel with
  | O => 0
  | S fuel =>
      if (j <=? i)%nat then 0
      else list_min
             (map (λ k, opt_fuel fuel P i k + opt_fuel fuel P (k + 1) j
                        + (P !!! (i - 1)%nat) * (P !!! k) * (P !!! j))
                  (seq i (j - i)))
  end.

Definition opt (P : list Z) (i j : nat) : Z := opt_fuel (j - i) P i j.

(** The exact cost of splitting [A_i ... A_j] after [A_k] with both parts
    multiplied at their best. *)
Definition split_cost (P : list Z) (i j k : nat) : Z :=
  opt P i k + opt P (k + 1) j + (P !!! (i - 1)%nat) * (P !!! k) * (P !!! j).

(** The same sum formed from the entries of a cost table, in exact
    arithmetic. *)
Definition table_cost (P : list Z) (m : table Z) (i j k : nat) : Z :=
  tget m i k + tget m (k + 1) j + (P !!! (i - 1)%nat) * (P !!! k) * (P !!! j).

(** Every split cost of every interval of the chain is below [B]. *)
Definition costs_below (B : Z) (P : list Z) : bool :=
  forallb (λ i,
    forallb (λ j,
      forallb (λ k, split_cost P i j k <? B) (seq i (j - i)))
      (seq i (length P - i)))
    (seq 1 (length P - 1)).

Definition positive (P : list Z) : bool := forallb (λ d, 0 <? d) P.

(** A dimension sequence for at least [N] matrices. *)
Definition valid (N : nat) (P : list Z) : Prop :=
  (N + 1 ≤ length P)%nat ∧ positive P = true.

(** ** The pure core of the scan over [k] *)

Definition scan_step (q : nat → Z) (c : Z * nat) (k : nat) : Z * nat :=
  if q k <? c.1 then (q k, k) else c.

Definition scan (q : nat → Z) (ks : list nat) (c : Z * nat) : Z * nat :=
  foldl (scan_step q) c ks.

(** ** Catalan numbers

    The sequence of the specification, C(0) = C(1) = 1 and
    C(n) = sum over j in [0, n - 1] of C(j) * C(n - 1 - j), in exact
    arithmetic. *)

Definition sumZ (l : list Z) : Z := foldr Z.add 0 l.

(** The convolution recurrence, in exact arithmetic; [fuel] stands for the
    course-of-values recursion. *)
Fixpoint Catalan_fuel (fuel n : nat) : Z :=
  match fuel with
  | O => 1
  | S fuel =>
      if (n <=? 1)%nat then 1
      else sumZ (map (λ j, Catalan_fuel fuel j * Catalan_fuel fuel (n - 1 - j))
                     (seq 0 n))
  end.

Definition Catalan (n : nat) : Z := Catalan_fuel n n.

(** [c] lists [C(0), C(1), ...]: it starts with 1, 1 and every later entry
    is the convolution of the entries before it. *)
Definition convolution (c : list Z) (n : nat) : Z :=
  sumZ (map (λ j, (c !!! j) * (c !!! (n - 1 - j)%nat)) (seq 0 n)).

Definition catalan_prefix (c : list Z) : bool :=
  forallb (λ n, if (n <=? 1)%nat then c !!! n =? 1
                else c !!! n =? convolution c n)
          (seq 0 (length c)).

Fixpoint factZ (n : nat) : Z :=
  match n with
  | O => 1
  | S k => Z.of_nat n * factZ k
  end.

Definition in_range64 (z : Z) : bool := (- 2 ^ 63 <=? z) && (z <=? LLONG_MAX).

(** The loops of [catalanNumber] in exact arithmetic.  The flag records that
    neither a product nor a sum has left the range of [long long]. *)
Definition catalan_step_exact (i : nat) (st : list Z * bool) (j : nat)
    : list Z * bool :=
  let p := (st.1 !!! j) * (st.1 !!! (i - j - 1)%nat) in
  let v := st.1 !!! i + p in
  (<[i := v]> st.1, st.2 && in_range64 p && in_range64 v).

Definition catalan_table_exact (N : nat) : list Z * bool :=
  let cat := replicate (N + 1) 0 in
  let cat := <[1%nat := 1]> cat in
  let cat := <[0%nat := cat !!! 1%nat]> cat in
  foldl (λ st i, foldl (catalan_step_exact i) st (seq 0 i)) (cat, true)
        (seq 2 (N - 1)).

(** The text of a parenthesization, as [printOptimalParenthesis] writes a
    product. *)
Fixpoint paren_text (e : paren) : string :=
  match e with
  | Leaf i => "A" +:+ decimal i
  | Prod l r => "(" +:+ paren_text l +:+ " x " +:+ paren_text r +:+ ")"
  end.

(** The parenthesization of the chain of [N] matrices taken in the opposite
    order that multiplies as [e] does. *)
Fixpoint mirror (N : nat) (e : paren) : paren :=
  match e with
  | Leaf i => Leaf (N + 1 - i)
  | Prod l r => Prod (mirror N r) (mirror N l)
  end.

(** All the full parenthesizations of [A_i ... A_j]; [fuel] stands for the
    recursion on the length of the interval. *)
Fixpoint parens (fuel : nat) (i j : nat) : list paren :=
  match fuel with
  | O => []
  | S fuel =>
      if (i =? j)%nat then [Leaf i]
      else
        k ← seq i (j - i);
        l ← parens fuel i k;
        r ← parens fuel (k + 1) j;
        [Prod l r]
  end.

Definition all_parens (i j : nat) : list paren := parens (j - i + 1) i j.

(** What the loop [for (int p : P) fout << p << " "] writes. *)
Definition dims_text (P : list Z) : string :=
  foldr (λ p txt, decimalZ p +:+ " " +:+ txt) "" P.

(** The report that [saveToFile] writes for the dimensions [P], the cost
    [c], the parenthesization [e] and the count [cat] of [n] matrices. *)
Definition report (P : list Z) (c : Z) (e : paren) (n : nat) (cat : Z)
    : string :=
  "Matrix dimensions (P): " +:+ dims_text P +:+ nl +:+ nl
  +:+ "Minimum multiplication cost: " +:+ decimalZ c +:+ nl
  +:+ "Optimal parenthesization: " +:+ paren_text e +:+ nl
  +:+ "Catalan number (n = " +:+ decimal n +:+ "): " +:+ decimalZ cat +:+ nl.

(** Every dimension of [P] lies in [lo .. hi]. *)
Definition dims_within (lo hi : Z) (P : list Z) : Prop :=
  ∀ d, d ∈ P → lo ≤ d ≤ hi.

(** ** The state of the tables inside [computeOptimalOrder] *)

(** The cell [(i, j)] holds what the scan over [k] leaves in it, the scan
    starting from [INT_MAX] and the split that [s0] had there. *)
Definition cell_done (P : list Z) (s0 : table nat)
    (m : table Z) (s : table nat) (i j : nat) : Prop :=
  (tget m i j, tget s i j)
  = scan (candidate P m i j) (seq i (j - i)) (INT_MAX, tget s0 i j).

(** The intervals that are behind the loops when these stand at the chain
    length [L] and the start [c]. *)
Definition behind (n L c i j : nat) : Prop :=
  (1 ≤ i ∧ i < j ≤ n ∧ (j - i + 1 < L ∨ (j - i + 1 = L ∧ i < c)))%nat.

Record loop_inv (P : list Z) (N n : nat) (m0 : table Z) (s0 : table nat)
    (L c : nat) (ms : table Z * table nat) : Prop := LoopInv
  { inv_square_m : square N ms.1;
    inv_square_s : square N ms.2;
    inv_done : ∀ i j, behind n L c i j → cell_done P s0 ms.1 ms.2 i j;
    inv_rest : ∀ i j, ¬ behind n L c i j →
               tget ms.1 i j = tget m0 i j ∧ tget ms.2 i j = tget s0 i j }.

(** What one call of [computeOptimalOrder] makes of the object [o]. *)
Record computed (N : nat) (o o' : t) : Prop := Computed
  { computed_P : P o' = P o;
    computed_n : n o' = n o;
    computed_square_m : square N (m o');
    computed_square_s : square N (s o');
    computed_diag : ∀ i, (1 ≤ i ≤ n o)%nat → tget (m o') i i = 0;
    computed_cell : ∀ i j, (1 ≤ i)%nat → (i < j ≤ n o)%nat →
                    cell_done (P o) (s o) (m o') (s o') i j;
    computed_m_rest : ∀ i j, ¬ (1 ≤ i ≤ j ∧ j ≤ n o)%nat →
                      tget (m o') i j = tget (m o) i j;
    computed_s_rest : ∀ i j, ¬ (1 ≤ i < j ∧ j ≤ n o)%nat →
                      tget (s o') i j = tget (s o) i j }.

(** * Proofs *)

(** [valid N dims] for a literal [dims]. *)
Ltac valid_dims := split; [simpl; lia|reflexivity].

(** ** Machine integers *)

Lemma wrap32_id z : - 2 ^ 31 ≤ z ≤ INT_MAX → wrap32 z = z.
Proof.
  unfold wrap32, INT_MAX. intros Hz.
  rewrite Z.mod_small by lia. lia.
Qed.

Lemma wrap32_le z : wrap32 z ≤ INT_MAX.
Proof.
  unfold wrap32, INT_MAX.
  pose proof (Z.mod_pos_bound (z + 2 ^ 31) (2 ^ 32)). lia.
Qed.

Lemma wrap32_mod z : wrap32 z `mod` 2 ^ 32 = z `mod` 2 ^ 32.
Proof.
  unfold wrap32. rewrite Zminus_mod_idemp_l. f_equal. lia.
Qed.

Lemma wrap32_congr a b : a `mod` 2 ^ 32 = b `mod` 2 ^ 32 → wrap32 a = wrap32 b.
Proof.
  intros Hab. unfold wrap32.
  rewrite <-(Zplus_mod_idemp_l a), <-(Zplus_mod_idemp_l b). by rewrite Hab.
Qed.

(** Reducing in between does not change the reduced sum or product. *)
Lemma wrap32_add a b : wrap32 (wrap32 a + wrap32 b) = wrap32 (a + b).
Proof.
  apply wrap32_congr. by rewrite Zplus_mod, !wrap32_mod, <-Zplus_mod.
Qed.

Lemma wrap32_mul_l a b : wrap32 (wrap32 a * b) = wrap32 (a * b).
Proof.
  apply wrap32_congr.
  by rewrite <-Zmult_mod_idemp_l, wrap32_mod, Zmult_mod_idemp_l.
Qed.

Lemma wrap64_mod z : wrap64 z `mod` 2 ^ 64 = z `mod` 2 ^ 64.
Proof.
  unfold wrap64. rewrite Zminus_mod_idemp_l. f_equal. lia.
Qed.

Lemma wrap64_congr a b : a `mod` 2 ^ 64 = b `mod` 2 ^ 64 → wrap64 a = wrap64 b.
Proof.
  intros Hab. unfold wrap64.
  rewrite <-(Zplus_mod_idemp_l a), <-(Zplus_mod_idemp_l b). by rewrite Hab.
Qed.

Lemma wrap64_add a b : wrap64 (wrap64 a + wrap64 b) = wrap64 (a + b).
Proof.
  apply wrap64_congr. by rewrite Zplus_mod, !wrap64_mod, <-Zplus_mod.
Qed.

Lemma wrap64_mul a b : wrap64 (wrap64 a * wrap64 b) = wrap64 (a * b).
Proof.
  apply wrap64_congr. by rewrite Zmult_mod, !wrap64_mod, <-Zmult_mod.
Qed.

Lemma wrap64_id z : - 2 ^ 63 ≤ z ≤ LLONG_MAX → wrap64 z = z.
Proof.
  unfold wrap64, LLONG_MAX. intros Hz.
  rewrite Z.mod_small by lia. lia.
Qed.

(** ** Tables *)

Section tables.
Context {A : Type} `{!Inhabited A}.
Implicit Types (t : table A) (v : A).

Lemma square_tset N t i j v : square N t → square N (tset t i j v).
Proof.
  intros [Hlen Hrows]. split.
  - unfold tset. by rewrite length_alter.
  - intros i' row. unfold tset. rewrite list_lookup_alter.
    case_decide as Hi; [subst i'|by apply Hrows].
    destruct (t !! i) as [row0|] eqn:Hrow; [|done].
    intros [= <-]. rewrite length_insert. by eapply Hrows.
Qed.

Lemma square_row N t i :
  square N t → (i < N)%nat → t !! i = Some (t !!! i) ∧ length (t !!! i) = N.
Proof.
  intros [Hlen Hrows] Hi.
  assert (t !! i = Some (t !!! i)) as Hrow
    by (apply list_lookup_lookup_total_lt; lia).
  split; [done|]. by eapply Hrows.
Qed.

Lemma tget_tset_eq N t i j v :
  square N t → (i < N)%nat → (j < N)%nat → tget (tset t i j v) i j = v.
Proof.
  intros Hsq Hi Hj. destruct (square_row N t i Hsq Hi) as [Hrow Hlen].
  unfold tget, tset. rewrite list_lookup_total_alter_eq.
  - apply list_lookup_total_insert_eq. lia.
  - destruct Hsq. lia.
Qed.

Lemma tget_tset_ne t i j v i' j' :
  (i, j) ≠ (i', j') → tget (tset t i j v) i' j' = tget t i' j'.
Proof.
  intros Hne. unfold tget, tset.
  destruct (decide (i = i')) as [->|Hi].
  - destruct (decide (i' < length t)%nat) as [Hlt|Hge].
    + rewrite list_lookup_total_alter_eq by done.
      apply list_lookup_total_insert_ne. congruence.
    + rewrite !list_lookup_total_alt.
      rewrite list_lookup_alter_eq.
      rewrite (lookup_ge_None_2 t i') by lia. done.
  - by rewrite list_lookup_total_alter_ne.
Qed.

Lemma tget_tset N t i j v i' j' :
  square N t → (i < N)%nat → (j < N)%nat →
  tget (tset t i j v) i' j' =
    if decide ((i, j) = (i', j')) then v else tget t i' j'.
Proof.
  intros Hsq Hi Hj. case_decide as Heq.
  - injection Heq as <- <-. by eapply tget_tset_eq.
  - by apply tget_tset_ne.
Qed.

Lemma table_ext N t1 t2 :
  square N t1 → square N t2 →
  (∀ i j, (i < N)%nat → (j < N)%nat → tget t1 i j = tget t2 i j) →
  t1 = t2.
Proof.
  intros Hsq1 Hsq2 Hcells.
  apply (list_eq_same_length _ _ N); [by destruct Hsq2|by destruct Hsq1|].
  intros i row1 row2 Hi Hrow1 Hrow2.
  destruct (square_row N t1 i Hsq1 Hi) as [Hr1 Hl1].
  destruct (square_row N t2 i Hsq2 Hi) as [Hr2 Hl2].
  assert (row1 = t1 !!! i) as -> by congruence.
  assert (row2 = t2 !!! i) as -> by congruence.
  apply (list_eq_same_length _ _ N); [done..|].
  intros j x y Hj Hx Hy.
  apply list_lookup_total_correct in Hx, Hy. subst x y.
  by apply Hcells.
Qed.

Lemma square_replicate N v : square N (replicate N (replicate N v)).
Proof.
  split; [by rewrite length_replicate|].
  intros i row [-> _]%lookup_replicate. by rewrite length_replicate.
Qed.

Lemma tget_replicate N v i j :
  (i < N)%nat → (j < N)%nat → tget (replicate N (replicate N v)) i j = v.
Proof.
  intros Hi Hj. unfold tget. by rewrite !lookup_total_replicate_2.
Qed.
End tables.

(** ** Loops over [seq] *)

Lemma foldl_seq_inv {A} (f : A → nat → A) (I : nat → A → Prop) a start len :
  I start a →
  (∀ x a, (start ≤ x < start + len)%nat → I x a → I (S x) (f a x)) →
  I (start + len)%nat (foldl f a (seq start len)).
Proof.
  revert start a. induction len as [|len IH]; intros start a Ha Hstep.
  - by rewrite Nat.add_0_r.
  - simpl. replace (start + S len)%nat with (S start + len)%nat by lia.
    apply IH.
    + apply Hstep; [lia|done].
    + intros x b Hx. apply Hstep. lia.
Qed.

(** ** The scan over [k] *)

Lemma scan_cons q k ks c : scan q (k :: ks) c = scan q ks (scan_step q c k).
Proof. done. Qed.

Lemma scan_snoc q ks k c : scan q (ks ++ [k]) c = scan_step q (scan q ks c) k.
Proof. unfold scan. by rewrite foldl_app. Qed.

Lemma scan_ext q q' ks c :
  (∀ k, k ∈ ks → q k = q' k) → scan q ks c = scan q' ks c.
Proof.
  revert c. induction ks as [|k ks IH]; intros c Hq; [done|].
  rewrite !scan_cons.
  assert (scan_step q c k = scan_step q' c k) as ->
    by (unfold scan_step; by rewrite (Hq k) by left).
  apply IH. intros k' Hk'. apply Hq. by right.
Qed.

Lemma scan_fst q ks c a b : (scan q ks (c, a)).1 = (scan q ks (c, b)).1.
Proof.
  revert c a b. induction ks as [|k ks IH]; intros c a b; [done|].
  rewrite !scan_cons. unfold scan_step; simpl.
  destruct (q k <? c); [done|apply IH].
Qed.

Lemma scan_seq_spec q i len c :
  let r := scan q (seq i len) c in
  (r = c ∧ ∀ k, (i ≤ k < i + len)%nat → c.1 ≤ q k) ∨
  (r.1 < c.1 ∧ is_first_at q i (i + len) r.1 r.2 ∧
   ∀ k, (i ≤ k < i + len)%nat → r.1 ≤ q k).
Proof.
  induction len as [|len IH]; cbv zeta in *.
  - left. split; [done|]. intros k Hk. lia.
  - rewrite seq_S, scan_snoc.
    set (r := scan q (seq i len) c) in *.
    unfold scan_step.
    destruct (Z.ltb_spec (q (i + len)%nat) r.1) as [Hlt|Hge]; simpl.
    + right. destruct IH as [[Hr Hall]|(Hr & Hfirst & Hall)].
      * rewrite Hr in Hlt. split; [done|]. split.
        -- split; [lia|]. split; [done|].
           intros k' Hk'. specialize (Hall k'). lia.
        -- intros k Hk. destruct (decide (k = (i + len)%nat)) as [->|Hne]; [lia|].
           specialize (Hall k). lia.
      * split; [lia|]. split.
        -- split; [lia|]. split; [done|].
           intros k' Hk'. specialize (Hall k'). lia.
        -- intros k Hk. destruct (decide (k = (i + len)%nat)) as [->|Hne]; [lia|].
           specialize (Hall k). lia.
    + destruct IH as [[Hr Hall]|(Hr & Hfirst & Hall)].
      * left. split; [done|]. rewrite Hr in Hge.
        intros k Hk. destruct (decide (k = (i + len)%nat)) as [->|Hne]; [lia|].
        apply Hall. lia.
      * right. split; [done|]. split.
        -- destruct Hfirst as (Hk & Hq & Hbefore).
           split; [lia|]. by split.
        -- intros k Hk. destruct (decide (k = (i + len)%nat)) as [->|Hne]; [lia|].
           apply Hall. lia.
Qed.

Lemma is_first_at_unique q i j v k1 k2 :
  is_first_at q i j v k1 → is_first_at q i j v k2 → k1 = k2.
Proof.
  intros (Hk1 & Hq1 & Hb1) (Hk2 & Hq2 & Hb2).
  destruct (Nat.lt_trichotomy k1 k2) as [Hlt|[->|Hgt]]; [|done|].
  - destruct (Hb2 k1); [lia|done].
  - destruct (Hb1 k2); [lia|done].
Qed.

(** Scanning again, from the split that the first scan left, changes
    nothing. *)
Lemma scan_seq_again q i len c a :
  scan q (seq i len) (c, (scan q (seq i len) (c, a)).2)
  = scan q (seq i len) (c, a).
Proof.
  set (r := scan q (seq i len) (c, a)).
  destruct (scan_seq_spec q i len (c, a)) as [[Hr _]|(Hlt & Hfirst & _)];
    fold r in Hr || fold r in Hlt, Hfirst.
  - by rewrite Hr.
  - set (r' := scan q (seq i len) (c, r.2)).
    assert (r'.1 = r.1) as Hfst by apply scan_fst.
    destruct (scan_seq_spec q i len (c, r.2)) as [[Hr' _]|(_ & Hfirst' & _)];
      fold r' in Hr' || fold r' in Hfirst'.
    + rewrite Hr' in Hfst. simpl in *. lia.
    + rewrite Hfst in Hfirst'.
      pose proof (is_first_at_unique _ _ _ _ _ _ Hfirst Hfirst') as Hsnd.
      destruct r, r'; simpl in *; congruence.
Qed.

(** ** The loops of [computeOptimalOrder] *)

Lemma candidate_ext P m m' i j k :
  tget m i k = tget m' i k → tget m (k + 1) j = tget m' (k + 1) j →
  candidate P m i j k = candidate P m' i j k.
Proof. unfold candidate. by intros -> ->. Qed.

(** Storing into [(i, j)] does not change the candidates of [(i, j)]. *)
Lemma candidate_tset P m i j v k :
  (i ≤ k < j)%nat → candidate P (tset m i j v) i j k = candidate P m i j k.
Proof.
  intros Hk. apply candidate_ext; apply tget_tset_ne; intros [=]; lia.
Qed.

(** The candidate of the program is the exact sum of the table entries and
    of the product, reduced to 32 bits. *)
Lemma candidate_wrap P m i j k :
  candidate P m i j k = wrap32 (table_cost P m i j k).
Proof.
  unfold candidate, table_cost, add32, mul32.
  by rewrite wrap32_mul_l, wrap32_add.
Qed.

Lemma candidate_le P m i j k : candidate P m i j k ≤ INT_MAX.
Proof. rewrite candidate_wrap. apply wrap32_le. Qed.

Lemma split_loop P N i j ks m s :
  square N m → square N s → (i < N)%nat → (j < N)%nat →
  (∀ k, k ∈ ks → (i ≤ k < j)%nat) →
  let ms' := foldl (split_step P i j) (m, s) ks in
  let r := scan (candidate P m i j) ks (tget m i j, tget s i j) in
  square N ms'.1 ∧ square N ms'.2 ∧
  tget ms'.1 i j = r.1 ∧ tget ms'.2 i j = r.2 ∧
  ∀ i' j', (i, j) ≠ (i', j') →
    tget ms'.1 i' j' = tget m i' j' ∧ tget ms'.2 i' j' = tget s i' j'.
Proof.
  intros Hm Hs Hi Hj. revert m s Hm Hs.
  induction ks as [|k ks IH]; intros m s Hm Hs Hks; cbv zeta.
  { simpl. by split_and!. }
  assert (i ≤ k < j)%nat as Hk by (apply Hks; left).
  assert (∀ k', k' ∈ ks → (i ≤ k' < j)%nat) as Hks'
    by (intros k' Hk'; apply Hks; by right).
  rewrite scan_cons. simpl foldl.
  assert (split_step P i j (m, s) k
          = if candidate P m i j k <? tget m i j
            then (tset m i j (candidate P m i j k), tset s i j k)
            else (m, s)) as -> by done.
  assert (scan_step (candidate P m i j) (tget m i j, tget s i j) k
          = if candidate P m i j k <? tget m i j
            then (candidate P m i j k, k)
            else (tget m i j, tget s i j)) as -> by done.
  destruct (candidate P m i j k <? tget m i j) eqn:Hlt.
  - specialize (IH (tset m i j (candidate P m i j k)) (tset s i j k)).
    destruct IH as (Hm' & Hs' & Hmij & Hsij & Hrest);
      [by apply square_tset..|done|].
    rewrite !(tget_tset_eq N) in Hmij, Hsij by done.
    rewrite (scan_ext _ (candidate P m i j)) in Hmij, Hsij
      by (intros k' Hk'; apply candidate_tset; auto).
    split_and!; [done..|].
    intros i' j' Hne. destruct (Hrest i' j' Hne) as [-> ->].
    by rewrite !tget_tset_ne.
  - by apply IH.
Qed.

Lemma interval_step_spec P N L i m s :
  square N m → square N s → (1 ≤ i)%nat → (2 ≤ L)%nat → (i + L - 1 < N)%nat →
  let j := (i + L - 1)%nat in
  let ms' := interval_step P L (m, s) i in
  let r := scan (candidate P m i j) (seq i (j - i)) (INT_MAX, tget s i j) in
  square N ms'.1 ∧ square N ms'.2 ∧
  tget ms'.1 i j = r.1 ∧ tget ms'.2 i j = r.2 ∧
  ∀ i' j', (i, j) ≠ (i', j') →
    tget ms'.1 i' j' = tget m i' j' ∧ tget ms'.2 i' j' = tget s i' j'.
Proof.
  intros Hm Hs Hi HL Hj j ms' r. subst ms'. unfold interval_step. fold j.
  simpl fst; simpl snd.
  assert (∀ k, k ∈ seq i (j - i) → (i ≤ k < j)%nat) as Hks
    by (intros k Hk%elem_of_seq; lia).
  destruct (split_loop P N i j (seq i (j - i)) (tset m i j INT_MAX) s)
    as (Hm' & Hs' & Hmij & Hsij & Hrest);
    [by apply square_tset|done|lia|done|done|].
  rewrite (tget_tset_eq N) in Hmij, Hsij by (done || lia).
  rewrite (scan_ext _ (candidate P m i j)) in Hmij, Hsij
    by (intros k' Hk'; apply candidate_tset; auto).
  split_and!; [done..|].
  intros i' j' Hne. destruct (Hrest i' j' Hne) as [-> ->].
  by rewrite tget_tset_ne.
Qed.

Lemma cell_done_ext P s0 m s m' s' i j :
  tget m' i j = tget m i j → tget s' i j = tget s i j →
  (∀ k, (i ≤ k < j)%nat →
        tget m' i k = tget m i k ∧ tget m' (k + 1) j = tget m (k + 1) j) →
  cell_done P s0 m s i j → cell_done P s0 m' s' i j.
Proof.
  unfold cell_done. intros -> -> Hsub ->.
  apply scan_ext. intros k Hk%elem_of_seq.
  destruct (Hsub k) as [Hl Hr]; [lia|]. by apply candidate_ext.
Qed.

Lemma loop_inv_interval P N n m0 s0 L c ms :
  (n < N)%nat → (2 ≤ L ≤ n)%nat → (1 ≤ c ≤ n - L + 1)%nat →
  loop_inv P N n m0 s0 L c ms →
  loop_inv P N n m0 s0 L (S c) (interval_step P L ms c).
Proof.
  intros HN HL Hc [Hm Hs Hdone Hrest]. destruct ms as [m s]. simpl in *.
  destruct (interval_step_spec P N L c m s)
    as (Hm' & Hs' & Hmij & Hsij & Hframe); [done|done|lia|lia|lia|].
  set (j := (c + L - 1)%nat) in *.
  set (ms' := interval_step P L (m, s) c) in *.
  assert (¬ behind n L c c j) as Hnot by (unfold behind; lia).
  split; [done|done|..].
  - intros i' j' Hbehind.
    destruct (decide ((c, j) = (i', j'))) as [[= <- <-]|Hne].
    + unfold cell_done. rewrite Hmij, Hsij.
      destruct (Hrest c j Hnot) as [_ ->].
      rewrite <-surjective_pairing. apply scan_ext.
      intros k Hk%elem_of_seq. symmetry.
      apply candidate_ext; apply Hframe; intros [=]; lia.
    + assert (behind n L c i' j') as Hb.
      { unfold behind in *. destruct (decide (i' = c)); [|lia].
        subst i'. assert (j' ≠ j) by congruence. lia. }
      apply (cell_done_ext P s0 m s); [by apply Hframe..| |by apply Hdone].
      intros k Hk. unfold behind in Hb.
      split; apply Hframe; intros [=]; lia.
  - intros i' j' Hnb.
    assert ((c, j) ≠ (i', j')) as Hne.
    { intros [= <- <-]. apply Hnb. unfold behind. lia. }
    destruct (Hframe i' j' Hne) as [-> ->].
    apply Hrest. unfold behind in *. lia.
Qed.

Lemma loop_inv_length P N n m0 s0 L ms :
  (n < N)%nat → (2 ≤ L ≤ n)%nat →
  loop_inv P N n m0 s0 L 1 ms →
  loop_inv P N n m0 s0 (S L) 1 (length_step P n ms L).
Proof.
  intros HN HL Hinv. unfold length_step.
  pose proof (foldl_seq_inv (interval_step P L)
                (λ c ms, loop_inv P N n m0 s0 L c ms) ms 1 (n - L + 1)) as Hloop.
  destruct Hloop as [Hm Hs Hdone Hrest]; [done| |].
  { intros c ms' Hc. apply loop_inv_interval; [done|done|lia]. }
  split; [done|done|..].
  - intros i j Hb. apply Hdone. unfold behind in *. lia.
  - intros i j Hb. apply Hrest. unfold behind in *. lia.
Qed.

Lemma diagonal_loop N n (m : table Z) :
  square N m → (n < N)%nat →
  let m' := foldl (λ m i, tset m i i 0) m (seq 1 n) in
  square N m' ∧
  ∀ i j, tget m' i j
         = if decide (i = j ∧ 1 ≤ i ≤ n)%nat then 0 else tget m i j.
Proof.
  intros Hm Hn.
  pose proof (foldl_seq_inv (λ m i, tset m i i 0)
    (λ x m', square N m' ∧
       ∀ i j, tget m' i j
              = if decide (i = j ∧ 1 ≤ i < x)%nat then 0 else tget m i j)
    m 1 n) as Hloop.
  destruct Hloop as [Hm' Hcells].
  - split; [done|]. intros i j. case_decide; [lia|done].
  - intros x m' Hx [Hm' Hcells]. split; [by apply square_tset|].
    intros i j. rewrite (tget_tset N) by (done || lia).
    destruct (decide ((x, x) = (i, j))) as [[= <- <-]|Hne].
    + rewrite decide_True by lia. done.
    + assert (¬ (i = x ∧ j = x)) by (intros [-> ->]; done).
      rewrite Hcells. repeat case_decide; try done; lia.
  - split; [done|]. intros i j. rewrite Hcells.
    repeat case_decide; try done; lia.
Qed.

Lemma computeOptimalOrder_spec N o :
  square N (m o) → square N (s o) → (n o < N)%nat →
  computed N o (computeOptimalOrder o).
Proof.
  intros Hm Hs Hn. unfold computeOptimalOrder.
  destruct (diagonal_loop N (n o) (m o) Hm Hn) as [Hm0 Hdiag].
  set (m0 := foldl (λ m i, tset m i i 0) (m o) (seq 1 (n o))) in *.
  pose proof (foldl_seq_inv (length_step (P o) (n o))
    (λ L ms, loop_inv (P o) N (n o) m0 (s o) L 1 ms)
    (m0, s o) 2 (n o - 1)) as Hloop.
  destruct Hloop as [Hm' Hs' Hdone Hrest].
  { split; [done|done|..].
    - intros i j Hb. unfold behind in Hb. lia.
    - done. }
  { intros L ms HL. apply loop_inv_length; [done|lia]. }
  set (ms := foldl (length_step (P o) (n o)) (m0, s o) (seq 2 (n o - 1))) in *.
  split; simpl; [done..| | | |].
  - intros i Hi. destruct (Hrest i i) as [-> _]; [unfold behind; lia|].
    rewrite Hdiag. by rewrite decide_True by lia.
  - intros i j Hi Hj. apply Hdone. unfold behind. lia.
  - intros i j Hij. destruct (Hrest i j) as [-> _]; [unfold behind; lia|].
    rewrite Hdiag. by rewrite decide_False by lia.
  - intros i j Hij. destruct (Hrest i j) as [_ ->]; [unfold behind; lia|done].
Qed.

Lemma square_make_m dims : square (length dims) (m (make dims)).
Proof. apply square_replicate. Qed.

Lemma square_make_s dims : square (length dims) (s (make dims)).
Proof. apply square_replicate. Qed.

Lemma run_computed dims :
  (1 ≤ length dims)%nat → computed (length dims) (make dims) (run dims).
Proof.
  intros Hlen. apply computeOptimalOrder_spec.
  - apply square_make_m.
  - apply square_make_s.
  - simpl. lia.
Qed.

(** ** The optimal cost in exact arithmetic *)

Lemma foldl_min_spec (l : list Z) x :
  let v := foldl Z.min x l in
  v ≤ x ∧ (∀ y, y ∈ l → v ≤ y) ∧ (v = x ∨ v ∈ l).
Proof.
  revert x. induction l as [|y l IH]; intros x; cbv zeta in *; simpl.
  - split; [lia|]. split; [|by left]. intros y Hy. by apply elem_of_nil in Hy.
  - destruct (IH (Z.min x y)) as (Hle & Hall & Hin).
    split; [lia|]. split.
    + intros z [->|Hz]%elem_of_cons; [lia|by apply Hall].
    + destruct Hin as [Heq|Hin]; [|right; by right].
      destruct (Z.min_spec x y) as [[_ Hmin]|[_ Hmin]]; rewrite Hmin in *.
      * by left.
      * right. rewrite Heq. by left.
Qed.

Lemma list_min_spec (l : list Z) :
  l ≠ [] → list_min l ∈ l ∧ ∀ y, y ∈ l → list_min l ≤ y.
Proof.
  destruct l as [|x l]; [done|]. intros _. simpl.
  destruct (foldl_min_spec l x) as (Hle & Hall & Hin). split.
  - destruct Hin as [->|Hin]; [by left|by right].
  - intros y [->|Hy]%elem_of_cons; [done|by apply Hall].
Qed.

Lemma list_min_map_seq (f : nat → Z) i j :
  (i < j)%nat → is_min_over f i j (list_min (map f (seq i (j - i)))).
Proof.
  intros Hij.
  destruct (list_min_spec (map f (seq i (j - i)))) as [Hin Hall].
  { destruct (j - i)%nat eqn:Hlen; [lia|done]. }
  split.
  - apply list_elem_of_In, in_map_iff in Hin as (k & Hv & Hk%in_seq).
    exists k. split; [lia|done].
  - intros k Hk. apply Hall.
    apply list_elem_of_In, in_map, in_seq. lia.
Qed.

Lemma is_min_over_unique f i j v1 v2 :
  is_min_over f i j v1 → is_min_over f i j v2 → v1 = v2.
Proof.
  intros [(k1 & Hk1 & <-) Hall1] [(k2 & Hk2 & <-) Hall2].
  specialize (Hall1 k2 Hk2). specialize (Hall2 k1 Hk1). lia.
Qed.

Lemma is_min_over_ext f g i j v :
  (∀ k, (i ≤ k < j)%nat → f k = g k) → is_min_over f i j v → is_min_over g i j v.
Proof.
  intros Hfg [(k & Hk & Hv) Hall]. split.
  - exists k. split; [done|]. by rewrite <-Hfg.
  - intros k' Hk'. rewrite <-Hfg by done. by apply Hall.
Qed.

Lemma is_first_at_ext f g i j v k :
  (∀ k, (i ≤ k < j)%nat → f k = g k) →
  is_first_at f i j v k → is_first_at g i j v k.
Proof.
  intros Hfg (Hk & Hv & Hbefore). split; [done|]. split.
  - by rewrite <-Hfg.
  - intros k' Hk'. rewrite <-Hfg by lia. by apply Hbefore.
Qed.

Lemma opt_fuel_enough P f1 f2 i j :
  (j - i ≤ f1)%nat → (j - i ≤ f2)%nat → opt_fuel f1 P i j = opt_fuel f2 P i j.
Proof.
  revert f2 i j. induction f1 as [|f1 IH]; intros [|f2] i j H1 H2; simpl.
  - done.
  - by rewrite (proj2 (Nat.leb_le j i)) by lia.
  - by rewrite (proj2 (Nat.leb_le j i)) by lia.
  - destruct (j <=? i)%nat eqn:Hji; [done|]. apply Nat.leb_gt in Hji.
    f_equal. apply map_ext_in. intros k Hk%in_seq.
    rewrite (IH f2 i k), (IH f2 (k + 1)%nat j) by lia. done.
Qed.

Lemma opt_diag P i j : (j ≤ i)%nat → opt P i j = 0.
Proof.
  intros Hji. unfold opt. replace (j - i)%nat with 0%nat by lia. done.
Qed.

Lemma opt_unfold P i j :
  (i < j)%nat → opt P i j = list_min (map (split_cost P i j) (seq i (j - i))).
Proof.
  intros Hij. unfold opt at 1.
  rewrite (opt_fuel_enough P (j - i) (S (j - i))) by lia.
  cbn [opt_fuel]. rewrite (proj2 (Nat.leb_gt j i)) by lia.
  f_equal. apply map_ext_in. intros k Hk%in_seq. unfold split_cost, opt.
  rewrite (opt_fuel_enough P (j - i) (k - i) i k) by lia.
  rewrite (opt_fuel_enough P (j - i) (j - (k + 1)) (k + 1) j) by lia. done.
Qed.

Lemma opt_is_min_over P i j :
  (i < j)%nat → is_min_over (split_cost P i j) i j (opt P i j).
Proof. intros Hij. rewrite opt_unfold by done. by apply list_min_map_seq. Qed.

Lemma spans_le e i j : spans e i j → (i ≤ j)%nat.
Proof. induction 1; lia. Qed.

Lemma spans_lo_hi e i j : spans e i j → lo e = i ∧ hi e = j.
Proof. induction 1; simpl; intuition. Qed.

Lemma spans_inv e i j :
  spans e i j →
  (e = Leaf i ∧ i = j) ∨
  (∃ l r k, e = Prod l r ∧ (i ≤ k < j)%nat ∧ spans l i k ∧ spans r (k + 1) j).
Proof.
  destruct 1 as [i|l r i k j Hl Hr]; [by left|right].
  exists l, r, k. apply spans_le in Hl as Hik. apply spans_le in Hr as Hkj.
  split; [done|]. split; [lia|done].
Qed.

Lemma cost_Prod P l r i k j :
  spans l i k → spans r (k + 1) j →
  cost P (Prod l r)
  = cost P l + cost P r + (P !!! (i - 1)%nat) * (P !!! k) * (P !!! j).
Proof.
  intros Hl Hr. simpl.
  destruct (spans_lo_hi _ _ _ Hl) as [-> ->].
  destruct (spans_lo_hi _ _ _ Hr) as [_ ->]. done.
Qed.

Lemma opt_is_min_cost P i j : (i ≤ j)%nat → is_min_cost P i j (opt P i j).
Proof.
  remember (j - i)%nat as len eqn:Hlen. revert i j Hlen.
  induction (lt_wf len) as [len _ IH]. intros i j -> Hij.
  destruct (decide (i = j)) as [->|Hne].
  - rewrite opt_diag by done. split.
    + exists (Leaf j). split; [constructor|done].
    + intros e [[-> _]|(l & r & k & _ & Hk & _)]%spans_inv; [done|lia].
  - destruct (opt_is_min_over P i j) as [(k & Hk & Hv) Hall]; [lia|].
    assert (∀ a b, (i ≤ a)%nat → (a ≤ b)%nat → (b ≤ j)%nat →
                   (b - a < j - i)%nat → is_min_cost P a b (opt P a b)) as IH'.
    { intros a b Ha Hab Hb Hlt. by apply (IH (b - a)%nat). }
    split.
    + destruct (IH' i k) as [(l & Hl & Hcl) _]; [lia..|].
      destruct (IH' (k + 1)%nat j) as [(r & Hr & Hcr) _]; [lia..|].
      exists (Prod l r). split; [by econstructor|].
      rewrite (cost_Prod P l r i k j) by done.
      rewrite Hcl, Hcr. done.
    + intros e [[-> ?]|(l & r & k' & -> & Hk' & Hl & Hr)]%spans_inv; [done|].
      rewrite (cost_Prod P l r i k' j) by done.
      destruct (IH' i k') as [_ Hlow_l]; [lia..|].
      destruct (IH' (k' + 1)%nat j) as [_ Hlow_r]; [lia..|].
      specialize (Hlow_l l Hl). specialize (Hlow_r r Hr).
      specialize (Hall k' Hk'). unfold split_cost in Hall. lia.
Qed.

Lemma positive_lookup P k : positive P = true → (k < length P)%nat → 0 < P !!! k.
Proof.
  intros Hpos Hk. unfold positive in Hpos. rewrite forallb_forall in Hpos.
  apply Z.ltb_lt, Hpos, list_elem_of_In, list_elem_of_lookup_total_2. lia.
Qed.

Lemma positive_lookup_nonneg P k : positive P = true → 0 ≤ P !!! k.
Proof.
  intros Hpos. destruct (decide (k < length P)%nat) as [Hk|Hk].
  - pose proof (positive_lookup P k Hpos Hk). lia.
  - rewrite list_lookup_total_alt, lookup_ge_None_2 by lia. done.
Qed.

Lemma cost_nonneg P e : positive P = true → 0 ≤ cost P e.
Proof.
  intros Hpos. induction e as [i|l IHl r IHr]; simpl; [done|].
  pose proof (positive_lookup_nonneg P (lo l - 1) Hpos).
  pose proof (positive_lookup_nonneg P (hi l) Hpos).
  pose proof (positive_lookup_nonneg P (hi r) Hpos).
  nia.
Qed.

Lemma opt_nonneg P i j : positive P = true → 0 ≤ opt P i j.
Proof.
  intros Hpos. destruct (decide (i ≤ j)%nat) as [Hij|Hij].
  - destruct (opt_is_min_cost P i j Hij) as [(e & _ & <-) _].
    by apply cost_nonneg.
  - rewrite opt_diag by lia. done.
Qed.

Lemma costs_below_spec B P i j k :
  costs_below B P = true →
  (1 ≤ i ≤ k)%nat → (k < j)%nat → (j + 1 ≤ length P)%nat →
  split_cost P i j k < B.
Proof.
  unfold costs_below. intros Hall Hi Hk Hj.
  rewrite forallb_forall in Hall.
  specialize (Hall i). rewrite forallb_forall in Hall.
  specialize (Hall ltac:(apply in_seq; lia) j).
  rewrite forallb_forall in Hall.
  apply Z.ltb_lt, Hall; apply in_seq; lia.
Qed.

Lemma costs_below_weaken B B' P :
  B ≤ B' → costs_below B P = true → costs_below B' P = true.
Proof.
  unfold costs_below. intros HB Hall.
  rewrite forallb_forall in Hall. apply forallb_forall. intros i Hi.
  specialize (Hall i Hi). rewrite forallb_forall in Hall.
  apply forallb_forall. intros j Hj.
  specialize (Hall j Hj). rewrite forallb_forall in Hall.
  apply forallb_forall. intros k Hk.
  specialize (Hall k Hk). apply Z.ltb_lt in Hall. apply Z.ltb_lt. lia.
Qed.

(** ** The tables after [computeOptimalOrder] *)

Lemma scan_le q i j a k :
  (i ≤ k < j)%nat → (scan q (seq i (j - i)) (INT_MAX, a)).1 ≤ q k.
Proof.
  intros Hk.
  destruct (scan_seq_spec q i (j - i) (INT_MAX, a))
    as [[-> Hall]|(_ & _ & Hall)]; apply Hall; lia.
Qed.

Lemma scan_is_min q i j a :
  (i < j)%nat → (∀ k, (i ≤ k < j)%nat → q k ≤ INT_MAX) →
  is_min_over q i j (scan q (seq i (j - i)) (INT_MAX, a)).1.
Proof.
  intros Hij Hq.
  destruct (scan_seq_spec q i (j - i) (INT_MAX, a))
    as [[-> Hall]|(_ & (Hk & Hv & _) & Hall)]; simpl in *.
  - split.
    + exists i. split; [lia|]. specialize (Hall i). specialize (Hq i). lia.
    + intros k Hk. apply Hall. lia.
  - split.
    + eexists. split; [|exact Hv]. lia.
    + intros k' Hk'. apply Hall. lia.
Qed.

Lemma scan_is_first q i j a :
  (i < j)%nat → (∀ k, (i ≤ k < j)%nat → q k < INT_MAX) →
  let r := scan q (seq i (j - i)) (INT_MAX, a) in
  is_first_at q i j r.1 r.2.
Proof.
  intros Hij Hq r. subst r.
  destruct (scan_seq_spec q i (j - i) (INT_MAX, a))
    as [[_ Hall]|(_ & Hfirst & _)]; simpl in *.
  - specialize (Hall i). specialize (Hq i). lia.
  - by replace (i + (j - i))%nat with j in Hfirst by lia.
Qed.

Lemma n_run dims : n (run dims) = (length dims - 1)%nat.
Proof. done. Qed.

Lemma P_run dims : P (run dims) = dims.
Proof. done. Qed.

(** Every interval holds what the scan over its splits leaves, started from
    the sentinel and the zero of the constructor. *)
Lemma run_cell dims i j :
  (1 ≤ i < j)%nat → (j + 1 ≤ length dims)%nat →
  (tget (m (run dims)) i j, tget (s (run dims)) i j)
  = scan (candidate dims (m (run dims)) i j) (seq i (j - i)) (INT_MAX, 0%nat).
Proof.
  intros Hi Hj.
  destruct (run_computed dims) as [_ _ _ _ _ Hcell _ _]; [lia|].
  specialize (Hcell i j). cbn [make P n s] in Hcell. unfold cell_done in Hcell.
  rewrite tget_replicate in Hcell by lia. apply Hcell; lia.
Qed.

(** In the arithmetic of the program, the entry of an interval is at most
    each of its candidates: no assumption on the dimensions is needed. *)
Lemma run_m_le_candidate dims i j k :
  (1 ≤ i ≤ k)%nat → (k < j)%nat → (j + 1 ≤ length dims)%nat →
  tget (m (run dims)) i j ≤ candidate dims (m (run dims)) i j k.
Proof.
  intros Hi Hk Hj.
  pose proof (f_equal fst (run_cell dims i j ltac:(lia) Hj)) as Hcell.
  cbn [fst] in Hcell. rewrite Hcell. apply scan_le. lia.
Qed.

(** In the arithmetic of the program the entry of an interval is the least
    of its candidates, whatever the dimensions. *)
Lemma run_m_is_min dims i j :
  (1 ≤ i < j)%nat → (j + 1 ≤ length dims)%nat →
  is_min_over (candidate dims (m (run dims)) i j) i j (tget (m (run dims)) i j).
Proof.
  intros Hi Hj.
  pose proof (f_equal fst (run_cell dims i j Hi Hj)) as Hcell.
  cbn [fst] in Hcell. rewrite Hcell.
  apply scan_is_min; [lia|]. intros k _. apply candidate_le.
Qed.

(** The split entry is the first split of least candidate, unless that least
    candidate is the sentinel: then the entry is still the zero of the
    constructor. *)
Lemma run_s_cases dims i j :
  (1 ≤ i < j)%nat → (j + 1 ≤ length dims)%nat →
  (tget (m (run dims)) i j < INT_MAX
   ∧ is_first_at (candidate dims (m (run dims)) i j) i j
       (tget (m (run dims)) i j) (tget (s (run dims)) i j))
  ∨ (tget (m (run dims)) i j = INT_MAX ∧ tget (s (run dims)) i j = 0%nat).
Proof.
  intros Hi Hj. pose proof (run_cell dims i j Hi Hj) as Hcell.
  destruct (scan_seq_spec (candidate dims (m (run dims)) i j) i (j - i)
              (INT_MAX, 0%nat)) as [[Hr _]|(Hlt & Hfirst & _)];
    rewrite <-Hcell in *; cbn [fst snd] in *.
  - right. by injection Hr.
  - left. split; [done|]. by replace (i + (j - i))%nat with j in Hfirst by lia.
Qed.

Lemma run_diag dims i :
  (1 ≤ i)%nat → (i + 1 ≤ length dims)%nat → tget (m (run dims)) i i = 0.
Proof.
  intros Hi Hlen.
  destruct (run_computed dims) as [_ _ _ _ Hdiag _ _ _]; [lia|].
  apply Hdiag. cbn [make n]. lia.
Qed.

Section exact.
Variable dims : list Z.
Hypothesis Hpos : positive dims = true.
Hypothesis Hfit : costs_below (INT_MAX + 1) dims = true.

(** Where the entries of the parts are exact, the candidate is. *)
Lemma candidate_exact (c : table Z) i j k :
  (1 ≤ i ≤ k)%nat → (k < j)%nat → (j + 1 ≤ length dims)%nat →
  tget c i k = opt dims i k → tget c (k + 1) j = opt dims (k + 1) j →
  candidate dims c i j k = split_cost dims i j k.
Proof using Hpos Hfit.
  intros Hi Hk Hj Hl Hr. unfold candidate, split_cost. rewrite Hl, Hr.
  pose proof (costs_below_spec _ _ i j k Hfit Hi Hk Hj) as Hle.
  unfold split_cost in Hle.
  pose proof (opt_nonneg dims i k Hpos).
  pose proof (opt_nonneg dims (k + 1) j Hpos).
  pose proof (positive_lookup dims (i - 1) Hpos ltac:(lia)).
  pose proof (positive_lookup dims k Hpos ltac:(lia)).
  pose proof (positive_lookup dims j Hpos ltac:(lia)).
  set (a := opt dims i k) in *. set (b := opt dims (k + 1)%nat j) in *.
  set (p1 := dims !!! (i - 1)%nat) in *. set (p2 := dims !!! k) in *.
  set (p3 := dims !!! j) in *.
  assert (0 < p1 * p2) by nia.
  assert (p1 * p2 ≤ p1 * p2 * p3) by nia.
  unfold add32, mul32, INT_MAX in *.
  rewrite (wrap32_id (a + b)) by (unfold INT_MAX; lia).
  rewrite (wrap32_id (p1 * p2)) by (unfold INT_MAX; lia).
  rewrite (wrap32_id (p1 * p2 * p3)) by (unfold INT_MAX; lia).
  apply wrap32_id. unfold INT_MAX. lia.
Qed.

Lemma run_m_opt i j :
  (1 ≤ i ≤ j)%nat → (j + 1 ≤ length dims)%nat →
  tget (m (run dims)) i j = opt dims i j.
Proof using Hpos Hfit.
  remember (j - i)%nat as len eqn:Hlen. revert i j Hlen.
  induction (lt_wf len) as [len _ IH]. intros i j -> Hi Hj.
  destruct (decide (i = j)) as [->|Hne].
  { rewrite opt_diag by done. apply run_diag; lia. }
  pose proof (f_equal fst (run_cell dims i j ltac:(lia) Hj)) as Hcell.
  cbn [fst] in Hcell.
  assert (∀ k, (i ≤ k < j)%nat →
    candidate dims (m (run dims)) i j k = split_cost dims i j k) as Hcand.
  { intros k Hk. apply candidate_exact; [lia..| |].
    - apply (IH (k - i)%nat); lia.
    - apply (IH (j - (k + 1))%nat); lia. }
  rewrite (scan_ext _ (split_cost dims i j)) in Hcell
    by (intros k Hk%elem_of_seq; apply Hcand; lia).
  eapply is_min_over_unique; [|apply opt_is_min_over; lia].
  rewrite Hcell. apply scan_is_min; [lia|].
  intros k Hk.
  pose proof (costs_below_spec _ _ i j k Hfit ltac:(lia) ltac:(lia) Hj). lia.
Qed.

Lemma run_candidate_exact i j k :
  (1 ≤ i ≤ k)%nat → (k < j)%nat → (j + 1 ≤ length dims)%nat →
  candidate dims (m (run dims)) i j k = split_cost dims i j k.
Proof using Hpos Hfit.
  intros Hi Hk Hj. apply candidate_exact; [done..| |]; apply run_m_opt; lia.
Qed.

Lemma run_table_cost i j k :
  (1 ≤ i ≤ k)%nat → (k < j)%nat → (j + 1 ≤ length dims)%nat →
  table_cost dims (m (run dims)) i j k = split_cost dims i j k.
Proof using Hpos Hfit.
  intros Hi Hk Hj. unfold table_cost, split_cost.
  by rewrite !run_m_opt by lia.
Qed.

(** With every split cost below the sentinel, the split entry is the first
    split of least cost. *)
Lemma run_s_first i j :
  costs_below INT_MAX dims = true →
  (1 ≤ i < j)%nat → (j + 1 ≤ length dims)%nat →
  is_first_at (split_cost dims i j) i j
    (opt dims i j) (tget (s (run dims)) i j).
Proof using Hpos Hfit.
  intros Hlt Hi Hj.
  pose proof (run_cell dims i j ltac:(lia) Hj) as Hcell.
  rewrite (scan_ext _ (split_cost dims i j)) in Hcell
    by (intros k Hk%elem_of_seq; apply run_candidate_exact; lia).
  pose proof (scan_is_first (split_cost dims i j) i j 0%nat) as Hfirst.
  cbv zeta in Hfirst. rewrite <-Hcell in Hfirst. cbn [fst snd] in Hfirst.
  rewrite run_m_opt in Hfirst by lia.
  apply Hfirst; [lia|]. intros k Hk.
  apply costs_below_spec; [done|lia..].
Qed.
End exact.

(** ** The reconstruction *)

Lemma append_assoc (a b c : string) : (a +:+ b) +:+ c = a +:+ (b +:+ c).
Proof.
  induction a as [|x a IH]; [done|].
  change (String x ((a +:+ b) +:+ c) = String x (a +:+ (b +:+ c))).
  by rewrite IH.
Qed.

Lemma append_empty_l (a : string) : "" +:+ a = a.
Proof. done. Qed.

Lemma print_S fuel o i j out :
  printOptimalParenthesis (S fuel) o i j out
  = if (i =? j)%nat then Some (out +:+ "A" +:+ decimal i)
    else
      out ← printOptimalParenthesis fuel o i (tget (s o) i j) (out +:+ "(");
      out ← printOptimalParenthesis fuel o (tget (s o) i j + 1) j
              (out +:+ " x ");
      Some (out +:+ ")").
Proof. done. Qed.

Lemma print_fuel_mono fuel fuel' o i j out r :
  printOptimalParenthesis fuel o i j out = Some r → (fuel ≤ fuel')%nat →
  printOptimalParenthesis fuel' o i j out = Some r.
Proof.
  revert fuel' i j out r.
  induction fuel as [|fuel IH]; intros fuel' i j out r Hrun Hle; [done|].
  destruct fuel' as [|fuel']; [lia|].
  rewrite print_S in *. destruct (i =? j)%nat; [done|].
  destruct (printOptimalParenthesis fuel o i _ _) as [out1|] eqn:H1; [|done].
  rewrite (IH fuel' _ _ _ _ H1) by lia. simpl in *.
  destruct (printOptimalParenthesis fuel o _ j _) as [out2|] eqn:H2; [|done].
  rewrite (IH fuel' _ _ _ _ H2) by lia. done.
Qed.

Lemma writes_det o i j out r1 r2 :
  writes o i j out r1 → writes o i j out r2 → r1 = r2.
Proof.
  intros [f1 H1] [f2 H2].
  apply (print_fuel_mono _ (f1 `max` f2)) in H1; [|lia].
  apply (print_fuel_mono _ (f1 `max` f2)) in H2; [|lia].
  congruence.
Qed.

Lemma writes_leaf o i out : writes o i i out (out +:+ "A" +:+ decimal i).
Proof. exists 1%nat. rewrite print_S. by rewrite Nat.eqb_refl. Qed.

Lemma writes_node o i j out out1 out2 :
  i ≠ j →
  writes o i (tget (s o) i j) (out +:+ "(") out1 →
  writes o (tget (s o) i j + 1) j (out1 +:+ " x ") out2 →
  writes o i j out (out2 +:+ ")").
Proof.
  intros Hne [f1 H1] [f2 H2]. exists (S (f1 `max` f2)).
  rewrite print_S. rewrite (proj2 (Nat.eqb_neq i j)) by done.
  rewrite (print_fuel_mono _ (f1 `max` f2) _ _ _ _ _ H1) by lia. simpl.
  rewrite (print_fuel_mono _ (f1 `max` f2) _ _ _ _ _ H2) by lia. done.
Qed.

Lemma writes_inv o i j out r :
  writes o i j out r →
  (i = j ∧ r = out +:+ "A" +:+ decimal i) ∨
  (i ≠ j ∧ ∃ out1 out2,
     writes o i (tget (s o) i j) (out +:+ "(") out1 ∧
     writes o (tget (s o) i j + 1) j (out1 +:+ " x ") out2 ∧
     r = out2 +:+ ")").
Proof.
  intros [[|fuel] Hrun]; [done|]. rewrite print_S in Hrun.
  destruct (Nat.eqb_spec i j) as [->|Hne].
  - left. split; [done|congruence].
  - right. split; [done|].
    destruct (printOptimalParenthesis fuel o i _ _) as [out1|] eqn:H1; [|done].
    simpl in Hrun.
    destruct (printOptimalParenthesis fuel o _ j _) as [out2|] eqn:H2; [|done].
    exists out1, out2. split; [by exists fuel|]. split; [by exists fuel|].
    simpl in Hrun. congruence.
Qed.

(** What a call writes does not depend on what the stream holds. *)
Lemma print_text fuel o i j out r :
  printOptimalParenthesis fuel o i j out = Some r →
  ∃ txt, r = out +:+ txt ∧
         ∀ out', printOptimalParenthesis fuel o i j out' = Some (out' +:+ txt).
Proof.
  revert i j out r.
  induction fuel as [|fuel IH]; intros i j out r Hrun; [done|].
  rewrite print_S in Hrun. destruct (i =? j)%nat eqn:Hij.
  - exists ("A" +:+ decimal i). split; [congruence|].
    intros out'. rewrite print_S. by rewrite Hij.
  - destruct (printOptimalParenthesis fuel o i _ _) as [out1|] eqn:H1; [|done].
    simpl in Hrun.
    destruct (printOptimalParenthesis fuel o _ j _) as [out2|] eqn:H2; [|done].
    simpl in Hrun. injection Hrun as <-.
    destruct (IH _ _ _ _ H1) as (l & -> & Hl).
    destruct (IH _ _ _ _ H2) as (r & -> & Hr).
    exists ("(" +:+ l +:+ " x " +:+ r +:+ ")"). split.
    + by rewrite !append_assoc.
    + intros out'. rewrite print_S, Hij, Hl. simpl. rewrite Hr. simpl.
      by rewrite !append_assoc.
Qed.

Lemma writes_renders o i j out r :
  writes o i j out r → ∃ txt, r = out +:+ txt ∧ renders o i j txt.
Proof.
  intros [fuel Hrun]. destruct (print_text _ _ _ _ _ _ Hrun) as (txt & -> & Htxt).
  exists txt. split; [done|]. intros out'. by exists fuel.
Qed.

Lemma renders_det o i j txt1 txt2 :
  renders o i j txt1 → renders o i j txt2 → txt1 = txt2.
Proof. intros H1 H2. apply (writes_det o i j "" _ _ (H1 "") (H2 "")). Qed.

Lemma renders_leaf o i : renders o i i ("A" +:+ decimal i).
Proof. intros out. apply writes_leaf. Qed.

Lemma renders_node o i j l r :
  i ≠ j →
  renders o i (tget (s o) i j) l → renders o (tget (s o) i j + 1) j r →
  renders o i j ("(" +:+ l +:+ " x " +:+ r +:+ ")").
Proof.
  intros Hne Hl Hr out.
  replace (out +:+ "(" +:+ l +:+ " x " +:+ r +:+ ")")
    with (((((out +:+ "(") +:+ l) +:+ " x ") +:+ r) +:+ ")")
    by (by rewrite !append_assoc).
  eapply writes_node; [done|apply Hl|apply Hr].
Qed.

Lemma renders_inv o i j txt :
  renders o i j txt →
  (i = j ∧ txt = "A" +:+ decimal i) ∨
  (i ≠ j ∧ ∃ l r,
     renders o i (tget (s o) i j) l ∧ renders o (tget (s o) i j + 1) j r ∧
     txt = "(" +:+ l +:+ " x " +:+ r +:+ ")").
Proof.
  intros Htxt.
  destruct (writes_inv _ _ _ _ _ (Htxt ""))
    as [[-> Hr]|(Hne & out1 & out2 & H1 & H2 & Hr)]; [by left|right].
  split; [done|].
  destruct (writes_renders _ _ _ _ _ H1) as (l & -> & Hl).
  destruct (writes_renders _ _ _ _ _ H2) as (r & -> & Hr').
  exists l, r. split; [done|]. split; [done|].
  rewrite !append_assoc, !append_empty_l in Hr. done.
Qed.

(** The depth of the calls is at most the number of matrices of the
    interval, where the splits lie inside their intervals. *)
Lemma print_terminates o fuel i j out :
  (∀ a b, (i ≤ a)%nat → (a < b)%nat → (b ≤ j)%nat →
          (a ≤ tget (s o) a b < b)%nat) →
  (i ≤ j)%nat → (j - i < fuel)%nat →
  is_Some (printOptimalParenthesis fuel o i j out).
Proof.
  revert i j out. induction fuel as [|fuel IH]; intros i j out Hs Hij Hfuel; [lia|].
  rewrite print_S. destruct (Nat.eqb_spec i j) as [->|Hne]; [done|].
  destruct (Hs i j) as [Hlo Hhi]; [lia..|].
  destruct (IH i (tget (s o) i j) (out +:+ "(")) as [out1 ->]; [|lia..|].
  { intros a b Ha Hab Hb. apply Hs; lia. }
  simpl.
  destruct (IH (tget (s o) i j + 1)%nat j (out1 +:+ " x ")) as [out2 ->];
    [|lia..|done].
  intros a b Ha Hab Hb. apply Hs; lia.
Qed.

(** ** A second call of [computeOptimalOrder] *)

Lemma computed_again_m N o o' o'' i j :
  computed N o o' → computed N o' o'' →
  tget (m o'') i j = tget (m o') i j.
Proof.
  intros H1 H2.
  destruct (decide (1 ≤ i ≤ j ∧ j ≤ n o)%nat) as [Hij|Hij]; last first.
  { apply (computed_m_rest _ _ _ H2). by rewrite (computed_n _ _ _ H1). }
  destruct Hij as [Hi Hj].
  remember (j - i)%nat as len eqn:Hlen. revert i j Hlen Hi Hj.
  induction (lt_wf len) as [len _ IH]. intros i j -> Hi Hj.
  destruct (decide (i = j)) as [->|Hne].
  { rewrite (computed_diag _ _ _ H1) by lia.
    apply (computed_diag _ _ _ H2). rewrite (computed_n _ _ _ H1). lia. }
  pose proof (computed_cell _ _ _ H1 i j ltac:(lia) ltac:(lia)) as Hc1.
  pose proof (computed_cell _ _ _ H2 i j ltac:(lia)) as Hc2.
  rewrite (computed_n _ _ _ H1), (computed_P _ _ _ H1) in Hc2.
  specialize (Hc2 ltac:(lia)). unfold cell_done in *.
  apply (f_equal fst) in Hc1, Hc2. cbn [fst] in Hc1, Hc2.
  rewrite Hc1, Hc2.
  rewrite (scan_fst _ _ _ _ (tget (s o) i j)).
  f_equal. apply scan_ext. intros k Hk%elem_of_seq.
  apply candidate_ext.
  - apply (IH (k - i)%nat); lia.
  - apply (IH (j - (k + 1))%nat); lia.
Qed.

Lemma computed_again_s N o o' o'' i j :
  computed N o o' → computed N o' o'' →
  tget (s o'') i j = tget (s o') i j.
Proof.
  intros H1 H2.
  destruct (decide (1 ≤ i < j ∧ j ≤ n o)%nat) as [Hij|Hij]; last first.
  { apply (computed_s_rest _ _ _ H2). by rewrite (computed_n _ _ _ H1). }
  pose proof (computed_cell _ _ _ H1 i j ltac:(lia) ltac:(lia)) as Hc1.
  pose proof (computed_cell _ _ _ H2 i j ltac:(lia)) as Hc2.
  rewrite (computed_n _ _ _ H1), (computed_P _ _ _ H1) in Hc2.
  specialize (Hc2 ltac:(lia)). unfold cell_done in *.
  rewrite (scan_ext _ (candidate (P o) (m o') i j)) in Hc2; last first.
  { intros k Hk. apply candidate_ext; by eapply computed_again_m. }
  apply (f_equal snd) in Hc1 as Hs1. cbn [snd] in Hs1.
  rewrite Hs1 in Hc2. rewrite scan_seq_again in Hc2.
  apply (f_equal snd) in Hc2. cbn [snd] in Hc2. congruence.
Qed.

Lemma computeOptimalOrder_again N o :
  square N (m o) → square N (s o) → (n o < N)%nat →
  computeOptimalOrder (computeOptimalOrder o) = computeOptimalOrder o.
Proof.
  intros Hm Hs Hn.
  pose proof (computeOptimalOrder_spec N o Hm Hs Hn) as H1.
  set (o' := computeOptimalOrder o) in *.
  pose proof (computeOptimalOrder_spec N o'
    (computed_square_m _ _ _ H1) (computed_square_s _ _ _ H1)) as H2.
  rewrite (computed_n _ _ _ H1) in H2. specialize (H2 Hn).
  set (o'' := computeOptimalOrder o') in *.
  assert (m o'' = m o') as Hmeq.
  { apply (table_ext N);
      [apply (computed_square_m _ _ _ H2)|apply (computed_square_m _ _ _ H1)|].
    intros i j _ _. by eapply computed_again_m. }
  assert (s o'' = s o') as Hseq.
  { apply (table_ext N);
      [apply (computed_square_s _ _ _ H2)|apply (computed_square_s _ _ _ H1)|].
    intros i j _ _. by eapply computed_again_s. }
  pose proof (computed_P _ _ _ H2) as HP. pose proof (computed_n _ _ _ H2) as Hneq.
  destruct o'', o'. simpl in *. congruence.
Qed.

(** ** Catalan numbers *)

Lemma Catalan_fuel_enough f1 f2 n :
  (n ≤ f1)%nat → (n ≤ f2)%nat → Catalan_fuel f1 n = Catalan_fuel f2 n.
Proof.
  revert f2 n. induction f1 as [|f1 IH]; intros [|f2] k H1 H2; simpl.
  - done.
  - by rewrite (proj2 (Nat.leb_le k 1)) by lia.
  - by rewrite (proj2 (Nat.leb_le k 1)) by lia.
  - destruct (k <=? 1)%nat eqn:Hk; [done|]. apply Nat.leb_gt in Hk.
    f_equal. apply map_ext_in. intros j Hj%in_seq.
    rewrite (IH f2 j), (IH f2 (k - 1 - j)%nat) by lia. done.
Qed.

Lemma Catalan_base k : (k ≤ 1)%nat → Catalan k = 1.
Proof. intros Hk. by destruct k as [|[|k]]; [..|lia]. Qed.

Lemma Catalan_unfold k :
  (2 ≤ k)%nat →
  Catalan k = sumZ (map (λ j, Catalan j * Catalan (k - 1 - j)) (seq 0 k)).
Proof.
  intros Hk. unfold Catalan at 1.
  rewrite (Catalan_fuel_enough k (S k)) by lia.
  cbn [Catalan_fuel]. rewrite (proj2 (Nat.leb_gt k 1)) by lia.
  f_equal. apply map_ext_in. intros j Hj%in_seq. unfold Catalan.
  rewrite (Catalan_fuel_enough k j j) by lia.
  rewrite (Catalan_fuel_enough k (k - 1 - j) (k - 1 - j)) by lia. done.
Qed.

(** A list that passes [catalan_prefix] lists the Catalan numbers. *)
Lemma catalan_prefix_spec c k :
  catalan_prefix c = true → (k < length c)%nat → c !!! k = Catalan k.
Proof.
  unfold catalan_prefix. rewrite forallb_forall. intros Hc.
  induction (lt_wf k) as [k _ IH]. intros Hk.
  specialize (Hc k ltac:(apply in_seq; lia)).
  destruct (k <=? 1)%nat eqn:Hk1.
  - apply Nat.leb_le in Hk1. rewrite Catalan_base by done. lia.
  - apply Nat.leb_gt in Hk1. apply Z.eqb_eq in Hc. rewrite Hc.
    rewrite Catalan_unfold by lia. unfold convolution.
    f_equal. apply map_ext_in. intros j Hj%in_seq.
    rewrite !IH by lia. done.
Qed.

Lemma forallb_below (f : nat → bool) N k :
  forallb f (seq 0 N) = true → (k < N)%nat → f k = true.
Proof.
  rewrite forallb_forall. intros Hall Hk. apply Hall, in_seq. lia.
Qed.

Lemma sumZ_snoc (f : nat → Z) j :
  sumZ (map f (seq 0 (S j))) = sumZ (map f (seq 0 j)) + f j.
Proof.
  rewrite seq_S, map_app. simpl. unfold sumZ. rewrite foldr_app. simpl.
  generalize (map f (seq 0 j)). intros l.
  induction l as [|x l IH]; simpl; lia.
Qed.

(** The loop on [j] adds the products of the entries before [i] to
    [cat[i]], and touches no other entry. *)
Lemma catalan_inner_loop (C : nat → Z) i acc cat j :
  (i < length cat)%nat → (j ≤ i)%nat →
  (∀ k, (k < i)%nat → cat !!! k = wrap64 (C k)) →
  cat !!! i = wrap64 acc →
  let cat' := foldl (catalan_step i) cat (seq 0 j) in
  length cat' = length cat
  ∧ cat' !!! i
    = wrap64 (acc + sumZ (map (λ j', C j' * C (i - 1 - j')%nat) (seq 0 j)))
  ∧ ∀ k, k ≠ i → cat' !!! k = cat !!! k.
Proof.
  intros Hi Hj Hbefore Hacc.
  induction j as [|j IH]; cbv zeta in *.
  - simpl. by rewrite Z.add_0_r.
  - destruct IH as (Hlen & Hcell & Hrest); [lia|].
    rewrite sumZ_snoc, seq_S, foldl_app. simpl foldl.
    set (cat' := foldl (catalan_step i) cat (seq 0 j)) in *.
    unfold catalan_step at 1 2 3. split_and!.
    + by rewrite length_insert.
    + rewrite list_lookup_total_insert_eq by lia.
      rewrite Hcell, !Hrest, !Hbefore by lia.
      unfold add64, mul64. rewrite wrap64_mul, wrap64_add.
      f_equal. replace (i - j - 1)%nat with (i - 1 - j)%nat by lia. lia.
    + intros k Hk. rewrite list_lookup_total_insert_ne by done. by apply Hrest.
Qed.

(** What [catalanNumber] returns for every [n >= 2]: the Catalan number
    reduced to 64 bits. *)
Lemma catalan_table_wrap64 N :
  (2 ≤ N)%nat → catalan_table N !!! N = wrap64 (Catalan N).
Proof.
  intros HN. unfold catalan_table.
  set (cat0 := <[0%nat := _]> _).
  assert (length cat0 = (N + 1)%nat) as Hlen0
    by (unfold cat0; by rewrite !length_insert, length_replicate).
  pose proof (foldl_seq_inv
    (λ cat i, foldl (catalan_step i) cat (seq 0 i))
    (λ i cat, length cat = (N + 1)%nat
              ∧ (∀ k, (k < i)%nat → cat !!! k = wrap64 (Catalan k))
              ∧ ∀ k, (i ≤ k ≤ N)%nat → cat !!! k = 0)
    cat0 2 (N - 1)) as Hloop.
  destruct Hloop as (_ & Hdone & _).
  - split; [done|]. unfold cat0. split.
    + intros [|[|k]] Hk; [| |lia].
      * rewrite list_lookup_total_insert_eq
          by (rewrite length_insert, length_replicate; lia).
        rewrite list_lookup_total_insert_eq by (rewrite length_replicate; lia).
        by vm_compute.
      * rewrite list_lookup_total_insert_ne by done.
        rewrite list_lookup_total_insert_eq by (rewrite length_replicate; lia).
        by vm_compute.
    + intros k Hk. rewrite !list_lookup_total_insert_ne by lia.
      by rewrite lookup_total_replicate_2 by lia.
  - intros i cat Hi (Hlen & Hbefore & Hafter).
    destruct (catalan_inner_loop Catalan i 0 cat i)
      as (Hlen' & Hcell & Hrest); [lia|lia|done|by rewrite Hafter by lia|].
    cbv zeta in *. split_and!.
    + congruence.
    + intros k Hk. destruct (decide (k = i)) as [->|Hne].
      * rewrite Hcell, Z.add_0_l. by rewrite <-Catalan_unfold by lia.
      * rewrite Hrest by done. apply Hbefore. lia.
    + intros k Hk. rewrite Hrest by lia. apply Hafter. lia.
  - apply Hdone. lia.
Qed.

Lemma catalanNumber_wrap64 z :
  2 ≤ z → catalanNumber z = wrap64 (Catalan (Z.to_nat z)).
Proof.
  intros Hz. unfold catalanNumber. rewrite (proj2 (Z.leb_gt z 1)) by lia.
  apply catalan_table_wrap64. lia.
Qed.

Lemma catalan_table_35 : catalan_prefix (catalan_table 35) = true.
Proof. by vm_compute. Qed.

Lemma catalanNumber_table_35 :
  forallb (λ k, catalanNumber (Z.of_nat k) =? catalan_table 35 !!! k)
          (seq 0 36) = true.
Proof. by vm_compute. Qed.

Lemma catalanNumber_Catalan k :
  (k ≤ 35)%nat → catalanNumber (Z.of_nat k) = Catalan k.
Proof.
  intros Hk.
  pose proof (forallb_below _ _ k catalanNumber_table_35 ltac:(lia)) as Heq.
  apply Z.eqb_eq in Heq. rewrite Heq.
  apply catalan_prefix_spec; [apply catalan_table_35|].
  vm_compute length. lia.
Qed.

Lemma catalanNumber_small z : z ≤ 1 → catalanNumber z = 1.
Proof.
  intros Hz. unfold catalanNumber. by rewrite (proj2 (Z.leb_le z 1)) by done.
Qed.

Lemma Catalan_36 : Catalan 36 = 11959798385860453492.
Proof.
  rewrite <-(catalan_prefix_spec
    (catalan_table 35 ++ [convolution (catalan_table 35) 36]) 36);
    by vm_compute.
Qed.

Lemma catalan_exact_35 :
  forallb (λ k, bool_decide
                  (catalan_table_exact k = (catalan_table k, true)))
          (seq 0 36) = true.
Proof. by vm_compute. Qed.

Lemma catalan_closed_form_35 :
  forallb (λ k, (catalanNumber (Z.of_nat k) * factZ (k + 1) * factZ k
                 =? factZ (2 * k))
                && (0 <? catalanNumber (Z.of_nat k))
                && (catalanNumber (Z.of_nat k) <=? LLONG_MAX))
          (seq 0 36) = true.
Proof. by vm_compute. Qed.

(** * The claims *)

Lemma is_min_cost_unique P i j c1 c2 :
  is_min_cost P i j c1 → is_min_cost P i j c2 → c1 = c2.
Proof.
  intros [(e1 & He1 & <-) Hall1] [(e2 & He2 & <-) Hall2].
  specialize (Hall1 e2 He2). specialize (Hall2 e1 He1). lia.
Qed.

(** Where no split cost exceeds INT_MAX, no sum of line 55 overflows and the
    entry m[1][n] that getMinCost returns is the least cost of a full
    parenthesization of the chain; for [10, 20, 30, 40, 30] it is 30000. *)
Lemma getMinCost_is_minimum :
  (∀ dims, valid 1 dims → costs_below (INT_MAX + 1) dims = true →
     is_min_cost dims 1 (n (run dims)) (getMinCost (run dims)))
  ∧ getMinCost (run [10; 20; 30; 40; 30]) = 30000.
Proof.
  split; [|by vm_compute].
  intros dims [Hlen Hpos] Hfit. unfold getMinCost. rewrite n_run.
  rewrite (run_m_opt dims Hpos Hfit) by lia.
  apply opt_is_min_cost. lia.
Qed.

(** C1: getMinCost does not return the least cost for the eight matrices of
    dimensions [960, 919, 850, 927, 672, 307, 467, 472, 381], all of them in
    the range 1 .. 1000 from which main draws.  The least cost over all full
    parenthesizations is 1178972100, which an [int] holds; a sum of line 55
    for a costlier split overflows to a negative [q], the test
    [q < m[i][j]] takes it for the least, and getMinCost returns
    -2027020967. *)
Theorem getMinCost_not_minimum :
  valid 1 [960; 919; 850; 927; 672; 307; 467; 472; 381]
  ∧ dims_within 1 1000 [960; 919; 850; 927; 672; 307; 467; 472; 381]
  ∧ is_min_cost [960; 919; 850; 927; 672; 307; 467; 472; 381] 1
      (n (run [960; 919; 850; 927; 672; 307; 467; 472; 381])) 1178972100
  ∧ 0 ≤ 1178972100 ≤ INT_MAX
  ∧ getMinCost (run [960; 919; 850; 927; 672; 307; 467; 472; 381])
    = -2027020967
  ∧ ¬ is_min_cost [960; 919; 850; 927; 672; 307; 467; 472; 381] 1
        (n (run [960; 919; 850; 927; 672; 307; 467; 472; 381]))
        (getMinCost (run [960; 919; 850; 927; 672; 307; 467; 472; 381])).
Proof.
  assert (is_min_cost [960; 919; 850; 927; 672; 307; 467; 472; 381] 1 8
            1178972100) as Hmin.
  { replace 1178972100
      with (opt [960; 919; 850; 927; 672; 307; 467; 472; 381] 1 8)
      by (by vm_compute).
    apply opt_is_min_cost. lia. }
  split_and!;
    [valid_dims| |done|lia|unfold INT_MAX; lia|by vm_compute|].
  - intros d Hd. repeat (apply elem_of_cons in Hd as [->|Hd]; [lia|]).
    by apply elem_of_nil in Hd.
  - intros Hmin'. pose proof (is_min_cost_unique _ _ _ _ _ Hmin Hmin') as Heq.
    vm_compute in Heq. done.
Qed.

(** A chain whose least cost no [int] holds: [2000, 2000, 2000] costs
    8000000000 multiplications; getMinCost returns the sum reduced to 32
    bits. *)
Lemma getMinCost_overflow :
  valid 1 [2000; 2000; 2000]
  ∧ is_min_cost [2000; 2000; 2000] 1 2 8000000000
  ∧ getMinCost (run [2000; 2000; 2000]) = -589934592
  ∧ ¬ is_min_cost [2000; 2000; 2000] 1 (n (run [2000; 2000; 2000]))
        (getMinCost (run [2000; 2000; 2000])).
Proof.
  assert (is_min_cost [2000; 2000; 2000] 1 2 8000000000) as Hmin
    by (apply (opt_is_min_cost [2000; 2000; 2000] 1 2); lia).
  split_and!; [valid_dims|done|by vm_compute|].
  intros Hmin'. pose proof (is_min_cost_unique _ _ _ _ _ Hmin Hmin') as Heq.
  vm_compute in Heq. done.
Qed.

(** Where every split cost is below INT_MAX the scan meets neither an
    overflow nor the sentinel: for every interval 1 <= i < j <= n,
    computeOptimalOrder leaves in m[i][j] the least of
    m[i][k] + m[k+1][j] + P[i-1] * P[k] * P[j] over k in [i, j - 1], and in
    s[i][j] the first k at which that least value is taken. *)
Lemma computeOptimalOrder_recurrence dims i j :
  valid 2 dims → costs_below INT_MAX dims = true →
  (1 ≤ i < j)%nat → (j ≤ n (run dims))%nat →
  is_min_over (table_cost dims (m (run dims)) i j) i j
    (tget (m (run dims)) i j)
  ∧ is_first_at (table_cost dims (m (run dims)) i j) i j
      (tget (m (run dims)) i j) (tget (s (run dims)) i j).
Proof.
  intros [Hlen Hpos] Hlt Hi Hj. rewrite n_run in Hj.
  assert (costs_below (INT_MAX + 1) dims = true) as Hfit
    by (apply (costs_below_weaken INT_MAX); [lia|done]).
  assert (∀ k, (i ≤ k < j)%nat →
    split_cost dims i j k = table_cost dims (m (run dims)) i j k) as Hext
    by (intros k Hk; symmetry; apply run_table_cost; [done..|lia|lia|lia]).
  rewrite (run_m_opt dims Hpos Hfit) by lia. split.
  - apply (is_min_over_ext (split_cost dims i j)); [done|].
    apply opt_is_min_over. lia.
  - apply (is_first_at_ext (split_cost dims i j)); [done|].
    apply run_s_first; [done..|lia].
Qed.

(** C2: computeOptimalOrder does not set s[i][j] to the smallest k that
    attains the minimum for the dimensions [1, 2147483647, 1], every one an
    [int].  Nothing overflows: the only split of [1, 2] costs
    0 + 0 + 1 * 2147483647 * 1 = INT_MAX, and m[1][2] is that minimum.  But
    m[1][2] was set to the sentinel INT_MAX before the scan, the test
    [q < m[i][j]] fails for q = INT_MAX, and the store [s[i][j] = k] is
    skipped: s[1][2] keeps the 0 of the constructor although the least cost
    is taken at k = 1 (and only there). *)
Lemma split_sentinel_collision :
  valid 2 [1; 2147483647; 1]
  ∧ table_cost [1; 2147483647; 1] (m (run [1; 2147483647; 1])) 1 2 1
    = INT_MAX
  ∧ is_first_at (table_cost [1; 2147483647; 1]
                   (m (run [1; 2147483647; 1])) 1 2) 1 2
      (tget (m (run [1; 2147483647; 1])) 1 2) 1
  ∧ tget (s (run [1; 2147483647; 1])) 1 2 = 0%nat
  ∧ ¬ is_first_at (table_cost [1; 2147483647; 1]
                     (m (run [1; 2147483647; 1])) 1 2) 1 2
        (tget (m (run [1; 2147483647; 1])) 1 2)
        (tget (s (run [1; 2147483647; 1])) 1 2).
Proof.
  split_and!; [valid_dims|by vm_compute| |by vm_compute|].
  - split; [lia|]. split; [by vm_compute|]. intros k Hk. lia.
  - intros [Hk _]. vm_compute in Hk. lia.
Qed.

(** With every split cost below the sentinel, every split of the table lies
    inside its interval. *)
Lemma run_s_bounds dims i j :
  valid 1 dims → costs_below INT_MAX dims = true →
  (1 ≤ i < j)%nat → (j ≤ n (run dims))%nat →
  (i ≤ tget (s (run dims)) i j < j)%nat.
Proof.
  intros [Hlen Hpos] Hlt Hi Hj. rewrite n_run in Hj.
  assert (costs_below (INT_MAX + 1) dims = true) as Hfit
    by (apply (costs_below_weaken INT_MAX); [lia|done]).
  by destruct (run_s_first dims Hpos Hfit i j Hlt Hi ltac:(lia)) as [? _].
Qed.

Lemma renders_A1_A2 : renders (run [10; 20; 30]) 1 2 "(A1 x A2)".
Proof.
  intros out. exists 2%nat. vm_compute printOptimalParenthesis.
  by rewrite !append_assoc.
Qed.

(** C3 (as amended): printOptimalParenthesis writes "A" and the decimal
    digits of i for an interval [i, i]; for i <> j it writes "(", then the
    text of [i, s[i][j]], then the separator " x " (a Latin letter x between
    two spaces), then the text of [s[i][j] + 1, j], then ")", and nothing
    else; on the tables of a sequence of positive dimensions whose split
    costs are below INT_MAX every interval 1 <= i <= j <= n has such a text;
    for [10, 20, 30] the text of [1, 2] is "(A1 x A2)". *)
Theorem printOptimalParenthesis_format :
  (∀ o i j,
     (i = j → renders o i j ("A" +:+ decimal i))
     ∧ (i ≠ j → ∀ l r,
          renders o i (tget (s o) i j) l →
          renders o (tget (s o) i j + 1) j r →
          renders o i j ("(" +:+ l +:+ " x " +:+ r +:+ ")"))
     ∧ (i ≠ j → ∀ txt, renders o i j txt →
          ∃ l r, renders o i (tget (s o) i j) l
                 ∧ renders o (tget (s o) i j + 1) j r
                 ∧ txt = "(" +:+ l +:+ " x " +:+ r +:+ ")")
     ∧ (∀ txt1 txt2, renders o i j txt1 → renders o i j txt2 → txt1 = txt2))
  ∧ (∀ dims i j,
       valid 1 dims → costs_below INT_MAX dims = true →
       (1 ≤ i ≤ j)%nat → (j ≤ n (run dims))%nat →
       ∃ txt, renders (run dims) i j txt)
  ∧ renders (run [10; 20; 30]) 1 2 "(A1 x A2)".
Proof.
  split_and!.
  - intros o i j. split_and!.
    + intros <-. apply renders_leaf.
    + intros Hne l r. by apply renders_node.
    + intros Hne txt [[? _]|[_ Hnode]]%renders_inv; done.
    + apply renders_det.
  - intros dims i j Hvalid Hlt Hi Hj.
    destruct (print_terminates (run dims) (S (j - i)) i j "") as [r Hrun];
      [|lia..|].
    { intros a b Ha Hab Hb. apply run_s_bounds; [done..|lia|lia]. }
    destruct (writes_renders (run dims) i j "" r) as (txt & _ & Htxt);
      [by eexists|by exists txt].
  - apply renders_A1_A2.
Qed.

Lemma printOptimalParenthesis_format_witness :
  renders (run [10; 20; 30; 40; 30]) 1 2 "(A1 x A2)".
Proof.
  refine (proj1 (proj2 (proj1 printOptimalParenthesis_format
                          (run [10; 20; 30; 40; 30]) 1%nat 2%nat))
            _ "A1" "A2" _ _).
  - lia.
  - change (tget (s (run [10; 20; 30; 40; 30])) 1 2) with 1%nat.
    apply (proj1 (proj1 printOptimalParenthesis_format
                    (run [10; 20; 30; 40; 30]) 1%nat 1%nat)).
    reflexivity.
  - change (tget (s (run [10; 20; 30; 40; 30]%Z)) 1 2 + 1)%nat with 2%nat.
    apply (proj1 (proj1 printOptimalParenthesis_format
                    (run [10; 20; 30; 40; 30]) 2%nat 2%nat)).
    reflexivity.
Defined.

(** C3 as stated fails: the separator that the code writes is " x ", with
    the letter x, and not " × " with the multiplication sign; for
    [10, 20, 30] the text is "(A1 x A2)" and not "(A1 × A2)". *)
Lemma printOptimalParenthesis_separator :
  renders (run [10; 20; 30]) 1 2 "(A1 x A2)"
  ∧ ¬ renders (run [10; 20; 30]) 1 2 "(A1 × A2)".
Proof.
  split; [apply renders_A1_A2|]. intros Htimes.
  by pose proof (renders_det _ _ _ _ _ renders_A1_A2 Htimes).
Qed.

(** For [1, 2147483647, 1] the call for [1, 0], to which the split 0 of
    [1, 2] leads, calls itself. *)
Lemma print_sentinel_loop fuel out :
  printOptimalParenthesis fuel (run [1; 2147483647; 1]) 1 0 out = None.
Proof.
  revert out. induction fuel as [|fuel IH]; intros out; [done|].
  rewrite print_S. cbn [Nat.eqb].
  change (tget (s (run [1; 2147483647; 1])) 1 0) with 0%nat.
  by rewrite IH.
Qed.

(** Where every split cost is below INT_MAX every split lies in its
    interval, and the call printOptimalParenthesis(i, j) on the tables of
    computeOptimalOrder returns, within j - i + 1 nested calls: for i < j
    both calls that it makes are on intervals with a smaller j - i. *)
Lemma printOptimalParenthesis_terminates dims i j out :
  valid 1 dims → costs_below INT_MAX dims = true →
  (1 ≤ i ≤ j)%nat → (j ≤ n (run dims))%nat →
  is_Some (printOptimalParenthesis (j - i + 1) (run dims) i j out)
  ∧ ((i < j)%nat →
     (tget (s (run dims)) i j - i < j - i)%nat
     ∧ (j - (tget (s (run dims)) i j + 1) < j - i)%nat).
Proof.
  intros Hvalid Hlt Hi Hj. split.
  - apply print_terminates; [|lia..].
    intros a b Ha Hab Hb. apply run_s_bounds; [done..|lia|lia].
  - intros Hij.
    pose proof (run_s_bounds dims i j Hvalid Hlt ltac:(lia) Hj). lia.
Qed.

(** C6: printOptimalParenthesis(1, 2) does not terminate on the split table
    that computeOptimalOrder produces for [1, 2147483647, 1] (n = 2, no
    overflow).  The split s[1][2] is the 0 that the scan never replaced (the
    only cost equals the sentinel INT_MAX), so the first recursive call is on
    [1, 0], where j - i has not decreased; s[1][0] is 0 as well and the call
    repeats itself without end: no depth of calls suffices. *)
Lemma printOptimalParenthesis_diverges :
  valid 1 [1; 2147483647; 1]
  ∧ (1 ≤ 1 ≤ 2)%nat ∧ (2 ≤ n (run [1; 2147483647; 1]%Z))%nat
  ∧ ∀ fuel out,
      printOptimalParenthesis fuel (run [1; 2147483647; 1]) 1 2 out = None.
Proof.
  split_and!; [valid_dims|lia..| |].
  { vm_compute. lia. }
  intros [|fuel] out; [done|]. rewrite print_S. cbn [Nat.eqb].
  change (tget (s (run [1; 2147483647; 1])) 1 2) with 0%nat.
  by rewrite print_sentinel_loop.
Qed.

(** The exact sum is at least the entry unless it is below -2^31, for every
    input: the candidate of the program is that sum reduced to 32 bits. *)
Lemma run_m_le_table_cost dims i j k :
  (1 ≤ i ≤ k)%nat → (k < j)%nat → (j + 1 ≤ length dims)%nat →
  - 2 ^ 31 ≤ table_cost dims (m (run dims)) i j k →
  tget (m (run dims)) i j ≤ table_cost dims (m (run dims)) i j k.
Proof.
  intros Hi Hk Hj Hlow.
  pose proof (run_m_le_candidate dims i j k Hi Hk Hj) as Hle.
  rewrite candidate_wrap in Hle.
  pose proof (wrap32_le (table_cost dims (m (run dims)) i j k)) as Hmax.
  destruct (decide (table_cost dims (m (run dims)) i j k ≤ INT_MAX))
    as [Hfit|Hbig]; [by rewrite wrap32_id in Hle|lia].
Qed.

(** C8: after computeOptimalOrder, for every dimension sequence, every
    1 <= i <= j <= n and every split k in [i, j),
    m[i][j] <= m[i][k] + m[k+1][j] + P[i-1] * P[k] * P[j], the right-hand
    side being the value [q] that line 55 computes for k (an [int]):
    m[i][j] is the least of exactly these values. *)
Theorem computeOptimalOrder_upper_bound dims i j k :
  (1 ≤ i ≤ j)%nat → (j ≤ n (run dims))%nat → (i ≤ k < j)%nat →
  tget (m (run dims)) i j ≤ candidate dims (m (run dims)) i j k.
Proof.
  intros Hi Hj Hk. rewrite n_run in Hj.
  apply run_m_le_candidate; lia.
Qed.

Lemma computeOptimalOrder_upper_bound_witness :
  tget (m (run [1; 65536; 32768; 65536; 1])) 1 4
  ≤ candidate [1; 65536; 32768; 65536; 1]
      (m (run [1; 65536; 32768; 65536; 1])) 1 4 2.
Proof.
  apply (computeOptimalOrder_upper_bound [1; 65536; 32768; 65536; 1] 1 4 2).
  - lia.
  - vm_compute. lia.
  - lia.
Defined.

(** The bound from below in [run_m_le_table_cost] is needed.  For
    [1, 65536, 32768, 65536, 1] the products 1 * 65536 * 32768 and
    32768 * 65536 * 1 are 2^31 and leave -2^31 in m[1][2] and m[3][4];
    m[1][4] is 32768, the [q] of line 55 for k = 2, while the sum of the
    same entries taken in the integers is -2^31 - 2^31 + 32768. *)
Lemma upper_bound_overflow :
  valid 1 [1; 65536; 32768; 65536; 1]
  ∧ (4 ≤ n (run [1; 65536; 32768; 65536; 1]%Z))%nat
  ∧ tget (m (run [1; 65536; 32768; 65536; 1])) 1 2 = - 2 ^ 31
  ∧ tget (m (run [1; 65536; 32768; 65536; 1])) 3 4 = - 2 ^ 31
  ∧ tget (m (run [1; 65536; 32768; 65536; 1])) 1 4 = 32768
  ∧ table_cost [1; 65536; 32768; 65536; 1]
      (m (run [1; 65536; 32768; 65536; 1])) 1 4 2 = -4294934528
  ∧ ¬ tget (m (run [1; 65536; 32768; 65536; 1])) 1 4
      ≤ table_cost [1; 65536; 32768; 65536; 1]
          (m (run [1; 65536; 32768; 65536; 1])) 1 4 2.
Proof.
  split_and!; [valid_dims|vm_compute; lia|by vm_compute..|].
  intros Hle. vm_compute in Hle. by apply Hle.
Qed.

(** C9: after computeOptimalOrder on a sequence with n >= 1, m[i][i] = 0 for
    every i in 1..n; for n = 1 getMinCost returns 0 and the text of the
    parenthesization is "A1". *)
Theorem computeOptimalOrder_diagonal dims :
  (1 ≤ n (run dims))%nat →
  (∀ i, (1 ≤ i ≤ n (run dims))%nat → tget (m (run dims)) i i = 0)
  ∧ (n (run dims) = 1%nat →
     getMinCost (run dims) = 0 ∧ renders (run dims) 1 (n (run dims)) "A1").
Proof.
  intros Hn. rewrite n_run in *. split.
  - intros i Hi. apply run_diag; lia.
  - intros H1. unfold getMinCost. rewrite n_run, H1. split.
    + apply run_diag; lia.
    + apply (renders_leaf (run dims) 1).
Qed.

Lemma computeOptimalOrder_diagonal_witness :
  (∀ i, (1 ≤ i ≤ n (run [5; 7]%Z))%nat → tget (m (run [5; 7])) i i = 0)
  ∧ (n (run [5; 7]) = 1%nat →
     getMinCost (run [5; 7]) = 0
     ∧ renders (run [5; 7]) 1 (n (run [5; 7])) "A1").
Proof.
  apply (computeOptimalOrder_diagonal [5; 7]).
  vm_compute. lia.
Defined.

(** Where every split cost is strictly below INT_MAX, every split entry off
    the diagonal satisfies i <= s[i][j] < j, for all 1 <= i < j <= n; both
    intervals that printOptimalParenthesis goes to from [i, j] then lie in
    1..n. *)
Lemma split_in_interval dims i j :
  valid 2 dims → costs_below INT_MAX dims = true →
  (1 ≤ i < j)%nat → (j ≤ n (run dims))%nat →
  (i ≤ tget (s (run dims)) i j < j)%nat
  ∧ (tget (s (run dims)) i j + 1 ≤ n (run dims))%nat.
Proof.
  intros [Hlen Hpos] Hlt Hi Hj.
  assert (i ≤ tget (s (run dims)) i j < j)%nat
    by (apply run_s_bounds; [split; [lia|done]|done..]).
  split; [done|lia].
Qed.

(** C10: the split entry s[1][2] is not in [1, 2) after computeOptimalOrder
    on [1, 2147483647, 1], a sequence with n = 2 none of whose split costs
    exceeds the 32-bit integer maximum (the one of [1, 2] is INT_MAX itself).
    The first candidate of the scan is not below the sentinel but equal to
    it, the strict test of line 56 skips the store, and s[1][2] = 0: the
    index that printOptimalParenthesis then uses, [1, 0], is outside the
    intervals of the chain. *)
Lemma split_out_of_interval :
  valid 2 [1; 2147483647; 1]
  ∧ costs_below (INT_MAX + 1) [1; 2147483647; 1] = true
  ∧ split_cost [1; 2147483647; 1] 1 2 1 = INT_MAX
  ∧ tget (s (run [1; 2147483647; 1])) 1 2 = 0%nat
  ∧ ¬ (1 ≤ tget (s (run [1; 2147483647; 1]%Z)) 1 2 < 2)%nat.
Proof.
  split_and!; [valid_dims|by vm_compute..|].
  intros Hk. vm_compute in Hk. lia.
Qed.

(** C7: computeOptimalOrder is a function of the dimension sequence alone.
    A second call on the object that a first call has left changes neither
    m nor s (nor P, nor n), whatever the sequence, and the text that
    printOptimalParenthesis writes from the tables is the same after one call
    and after two. *)
Theorem computeOptimalOrder_deterministic dims :
  computeOptimalOrder (run dims) = run dims
  ∧ m (computeOptimalOrder (run dims)) = m (run dims)
  ∧ s (computeOptimalOrder (run dims)) = s (run dims)
  ∧ ∀ fuel i j out,
      printOptimalParenthesis fuel (computeOptimalOrder (run dims)) i j out
      = printOptimalParenthesis fuel (run dims) i j out.
Proof.
  assert (computeOptimalOrder (run dims) = run dims) as Heq.
  { destruct dims as [|d dims]; [by vm_compute|].
    apply (computeOptimalOrder_again (length (d :: dims))).
    - apply square_make_m.
    - apply square_make_s.
    - simpl. lia. }
  rewrite Heq. by split_and!.
Qed.

(** C4 (as amended): catalanNumber(n) returns 1 for n <= 1; for
    2 <= n <= 35 it returns the value C(n) of the convolution recurrence
    C(n) = sum over j in [0, n - 1] of C(j) * C(n - 1 - j) with
    C(0) = C(1) = 1, and its own values satisfy that recurrence;
    catalanNumber(0) = catalanNumber(1) = 1, catalanNumber(4) = 14 and
    catalanNumber(5) = 42; the count reported for a chain depends on the
    number of its matrices only. *)
Theorem catalanNumber_recurrence :
  (∀ z, z ≤ 1 → catalanNumber z = 1)
  ∧ (∀ z, 2 ≤ z ≤ 35 →
       catalanNumber z = Catalan (Z.to_nat z)
       ∧ catalanNumber z
         = sumZ (map (λ j, catalanNumber (Z.of_nat j)
                           * catalanNumber (z - 1 - Z.of_nat j))
                     (seq 0 (Z.to_nat z))))
  ∧ catalanNumber 0 = 1 ∧ catalanNumber 1 = 1
  ∧ catalanNumber 4 = 14 ∧ catalanNumber 5 = 42
  ∧ (∀ dims dims', length dims = length dims' →
       catalanNumber (Z.of_nat (n (run dims)))
       = catalanNumber (Z.of_nat (n (run dims')))).
Proof.
  split_and!; [apply catalanNumber_small| |by vm_compute..|].
  - intros z Hz.
    assert (catalanNumber z = Catalan (Z.to_nat z)) as Heq.
    { rewrite <-(Z2Nat.id z) at 1 by lia. apply catalanNumber_Catalan. lia. }
    split; [done|]. rewrite Heq, Catalan_unfold by lia.
    f_equal. apply map_ext_in. intros j Hj%in_seq.
    rewrite catalanNumber_Catalan by lia.
    replace (z - 1 - Z.of_nat j) with (Z.of_nat (Z.to_nat z - 1 - j)) by lia.
    rewrite catalanNumber_Catalan by lia. done.
  - intros dims dims' Hlen. by rewrite !n_run, Hlen.
Qed.

Lemma catalanNumber_recurrence_witness :
  catalanNumber 5 = Catalan (Z.to_nat 5)
  ∧ catalanNumber 5
    = sumZ (map (λ j, catalanNumber (Z.of_nat j)
                      * catalanNumber (5 - 1 - Z.of_nat j))
                (seq 0 (Z.to_nat 5))).
Proof. apply (proj1 (proj2 catalanNumber_recurrence) 5). lia. Defined.

(** C4 as stated fails: C(36) = 11959798385860453492 exceeds the largest
    [long long]; catalanNumber(36) is that number reduced to 64 bits. *)
Lemma catalanNumber_36_overflow :
  2 ≤ 36
  ∧ Catalan (Z.to_nat 36) = 11959798385860453492
  ∧ catalanNumber 36 = -6486945687849098124
  ∧ catalanNumber 36 ≠ Catalan (Z.to_nat 36).
Proof.
  change (Z.to_nat 36) with 36%nat. rewrite Catalan_36.
  split_and!; [lia|done|by vm_compute|by vm_compute].
Qed.

(** C5: the computation is in [long long], a signed type of 64 bits, and for
    every n from 0 to 35 (so through 30) catalanNumber(n) is the mathematical
    Catalan number C(n) = (2n)! / ((n+1)! n!): it is the value of the
    recurrence, it is positive and at most LLONG_MAX, and the loops run in
    exact arithmetic give the same table with no product and no sum outside
    the range of [long long]. *)
Theorem catalanNumber_no_overflow z :
  0 ≤ z ≤ 35 →
  catalanNumber z = Catalan (Z.to_nat z)
  ∧ catalanNumber z * factZ (Z.to_nat z + 1) * factZ (Z.to_nat z)
    = factZ (2 * Z.to_nat z)
  ∧ 0 < catalanNumber z ≤ LLONG_MAX
  ∧ catalan_table_exact (Z.to_nat z) = (catalan_table (Z.to_nat z), true).
Proof.
  intros Hz. assert (∃ k, z = Z.of_nat k ∧ (k < 36)%nat) as (k & -> & Hk)
    by (exists (Z.to_nat z); lia).
  rewrite Nat2Z.id.
  pose proof (forallb_below _ _ k catalan_closed_form_35 Hk) as Hclosed.
  pose proof (forallb_below _ _ k catalan_exact_35 Hk) as Hexact.
  cbv beta in Hclosed, Hexact.
  apply andb_prop in Hclosed as [[Hfact Hpos]%andb_prop Hmax].
  apply Z.eqb_eq in Hfact. apply Z.ltb_lt in Hpos. apply Z.leb_le in Hmax.
  apply bool_decide_eq_true in Hexact.
  split_and!; [apply catalanNumber_Catalan; lia|done..].
Qed.

Lemma catalanNumber_no_overflow_witness :
  catalanNumber 30 = Catalan (Z.to_nat 30)
  ∧ catalanNumber 30 * factZ (Z.to_nat 30 + 1) * factZ (Z.to_nat 30)
    = factZ (2 * Z.to_nat 30)
  ∧ 0 < catalanNumber 30 ≤ LLONG_MAX
  ∧ catalan_table_exact (Z.to_nat 30) = (catalan_table (Z.to_nat 30), true).
Proof. apply (catalanNumber_no_overflow 30). lia. Defined.

(** * More of the program *)

(** ** The tables for every input *)

(** X1: computeOptimalOrder keeps P, n and the shape of both tables, and
    writes only intervals: every cell of m outside 1 <= i <= j <= n and every
    cell of s outside 1 <= i < j <= n is left as it was. *)
Theorem computeOptimalOrder_frame N o :
  square N (m o) → square N (s o) → (n o < N)%nat →
  P (computeOptimalOrder o) = P o
  ∧ n (computeOptimalOrder o) = n o
  ∧ square N (m (computeOptimalOrder o))
  ∧ square N (s (computeOptimalOrder o))
  ∧ (∀ i j, ¬ (1 ≤ i ≤ j ∧ j ≤ n o)%nat →
       tget (m (computeOptimalOrder o)) i j = tget (m o) i j)
  ∧ (∀ i j, ¬ (1 ≤ i < j ∧ j ≤ n o)%nat →
       tget (s (computeOptimalOrder o)) i j = tget (s o) i j).
Proof.
  intros Hm Hs Hn.
  destruct (computeOptimalOrder_spec N o Hm Hs Hn)
    as [HP Hneq Hm' Hs' _ _ Hmrest Hsrest].
  by split_and!.
Qed.

Lemma computeOptimalOrder_frame_witness :
  P (computeOptimalOrder (make [10; 20; 30])) = P (make [10; 20; 30])
  ∧ n (computeOptimalOrder (make [10; 20; 30])) = n (make [10; 20; 30])
  ∧ square 3 (m (computeOptimalOrder (make [10; 20; 30])))
  ∧ square 3 (s (computeOptimalOrder (make [10; 20; 30])))
  ∧ (∀ i j, ¬ (1 ≤ i ≤ j ∧ j ≤ n (make [10; 20; 30]%Z))%nat →
       tget (m (computeOptimalOrder (make [10; 20; 30]))) i j
       = tget (m (make [10; 20; 30])) i j)
  ∧ (∀ i j, ¬ (1 ≤ i < j ∧ j ≤ n (make [10; 20; 30]%Z))%nat →
       tget (s (computeOptimalOrder (make [10; 20; 30]))) i j
       = tget (s (make [10; 20; 30])) i j).
Proof.
  apply (computeOptimalOrder_frame 3 (make [10; 20; 30])).
  - apply (square_make_m [10; 20; 30]).
  - apply (square_make_s [10; 20; 30]).
  - simpl. lia.
Defined.

(** X2: for every dimension sequence, with or without overflow, and every
    interval 1 <= i < j <= n, computeOptimalOrder leaves in m[i][j] the least
    of the values q that line 55 computes (in int) for k in [i, j), which is
    at most INT_MAX; s[i][j] is the first k with that q when m[i][j] is below
    INT_MAX, and when m[i][j] is INT_MAX the split was never written:
    s[i][j] is the 0 of the constructor, outside [i, j). *)
Theorem computeOptimalOrder_sentinel dims i j :
  (1 ≤ i < j)%nat → (j ≤ n (run dims))%nat →
  is_min_over (candidate dims (m (run dims)) i j) i j (tget (m (run dims)) i j)
  ∧ tget (m (run dims)) i j ≤ INT_MAX
  ∧ (tget (m (run dims)) i j < INT_MAX →
     is_first_at (candidate dims (m (run dims)) i j) i j
       (tget (m (run dims)) i j) (tget (s (run dims)) i j))
  ∧ (tget (m (run dims)) i j = INT_MAX → tget (s (run dims)) i j = 0%nat).
Proof.
  intros Hi Hj. rewrite n_run in Hj.
  pose proof (run_m_is_min dims i j Hi ltac:(lia)) as Hmin.
  split_and!; [done| |..].
  - destruct Hmin as [(k & _ & <-) _]. apply candidate_le.
  - intros Hlt.
    destruct (run_s_cases dims i j Hi ltac:(lia)) as [[_ ?]|[? _]]; [done|lia].
  - intros Heq.
    destruct (run_s_cases dims i j Hi ltac:(lia)) as [[? _]|[_ ?]]; [lia|done].
Qed.

Lemma computeOptimalOrder_sentinel_witness :
  is_min_over (candidate [1; 2147483647; 1] (m (run [1; 2147483647; 1])) 1 2)
    1 2 (tget (m (run [1; 2147483647; 1])) 1 2)
  ∧ tget (m (run [1; 2147483647; 1])) 1 2 ≤ INT_MAX
  ∧ (tget (m (run [1; 2147483647; 1])) 1 2 < INT_MAX →
     is_first_at (candidate [1; 2147483647; 1]
                    (m (run [1; 2147483647; 1])) 1 2) 1 2
       (tget (m (run [1; 2147483647; 1])) 1 2)
       (tget (s (run [1; 2147483647; 1])) 1 2))
  ∧ (tget (m (run [1; 2147483647; 1])) 1 2 = INT_MAX →
     tget (s (run [1; 2147483647; 1])) 1 2 = 0%nat).
Proof.
  apply (computeOptimalOrder_sentinel [1; 2147483647; 1] 1 2).
  - lia.
  - vm_compute. lia.
Defined.

(** ** The parenthesization that is written *)

Lemma print_renders fuel o i j out txt :
  renders o i j txt → is_Some (printOptimalParenthesis fuel o i j out) →
  printOptimalParenthesis fuel o i j out = Some (out +:+ txt).
Proof.
  intros Htxt [r Hrun]. rewrite Hrun. f_equal.
  apply (writes_det o i j out); [by exists fuel|apply Htxt].
Qed.

Lemma split_tree o i j :
  (∀ a b, (i ≤ a)%nat → (a < b)%nat → (b ≤ j)%nat →
          (a ≤ tget (s o) a b < b)%nat) →
  (i ≤ j)%nat → ∃ e, spans e i j ∧ renders o i j (paren_text e).
Proof.
  remember (j - i)%nat as len eqn:Hlen. revert i j Hlen.
  induction (lt_wf len) as [len _ IH]. intros i j -> Hs Hij.
  destruct (decide (i = j)) as [->|Hne].
  { exists (Leaf j). split; [constructor|apply renders_leaf]. }
  destruct (Hs i j) as [Hlo Hhi]; [lia..|].
  destruct (IH (tget (s o) i j - i)%nat ltac:(lia) i (tget (s o) i j))
    as (l & Hl & Htl); [done| |lia|].
  { intros a b Ha Hab Hb. apply Hs; lia. }
  destruct (IH (j - (tget (s o) i j + 1))%nat ltac:(lia)
              (tget (s o) i j + 1)%nat j) as (r & Hr & Htr); [done| |lia|].
  { intros a b Ha Hab Hb. apply Hs; lia. }
  exists (Prod l r). split; [by econstructor|].
  by apply renders_node.
Qed.

(** X3: for whatever split table, if on every sub-interval [a, b] of [i, j]
    with a < b the entry satisfies a <= s[a][b] < b, then
    printOptimalParenthesis(i, j) returns within j - i + 1 nested calls, and
    what it writes is the text of a full parenthesization of A_i ... A_j:
    every matrix of the interval once, in order. *)
Theorem printOptimalParenthesis_tree o i j :
  (∀ a b, (i ≤ a)%nat → (a < b)%nat → (b ≤ j)%nat →
          (a ≤ tget (s o) a b < b)%nat) →
  (i ≤ j)%nat →
  ∃ e, spans e i j
       ∧ ∀ fuel out, (j - i < fuel)%nat →
           printOptimalParenthesis fuel o i j out
           = Some (out +:+ paren_text e).
Proof.
  intros Hs Hij. destruct (split_tree o i j Hs Hij) as (e & He & Htxt).
  exists e. split; [done|]. intros fuel out Hfuel.
  apply print_renders; [done|]. by apply print_terminates.
Qed.

Lemma printOptimalParenthesis_tree_witness :
  ∃ e, spans e 1 4
       ∧ ∀ fuel out, (4 - 1 < fuel)%nat →
           printOptimalParenthesis fuel (run [10; 20; 30; 40; 30]) 1 4 out
           = Some (out +:+ paren_text e).
Proof.
  apply (printOptimalParenthesis_tree (run [10; 20; 30; 40; 30]) 1 4).
  - intros a b Ha Hab Hb.
    assert (a = 1 ∨ a = 2 ∨ a = 3)%nat as [-> | [-> | ->]] by lia;
      assert (b = 2 ∨ b = 3 ∨ b = 4)%nat as [-> | [-> | ->]] by lia;
      try lia; vm_compute; lia.
  - lia.
Defined.

Lemma run_optimal_tree dims i j :
  valid 1 dims → costs_below INT_MAX dims = true →
  (1 ≤ i ≤ j)%nat → (j + 1 ≤ length dims)%nat →
  ∃ e, spans e i j ∧ cost dims e = opt dims i j
       ∧ renders (run dims) i j (paren_text e).
Proof.
  intros [Hlen Hpos] Hlt.
  assert (costs_below (INT_MAX + 1) dims = true) as Hfit
    by (apply (costs_below_weaken INT_MAX); [lia|done]).
  remember (j - i)%nat as len eqn:Heq. revert i j Heq.
  induction (lt_wf len) as [len _ IH]. intros i j -> Hi Hj.
  destruct (decide (i = j)) as [->|Hne].
  { exists (Leaf j). split_and!; [constructor| |apply renders_leaf].
    by rewrite opt_diag. }
  destruct (run_s_first dims Hpos Hfit i j Hlt ltac:(lia) Hj)
    as (Hk & Hv & _).
  set (k := tget (s (run dims)) i j) in *.
  destruct (IH (k - i)%nat ltac:(lia) i k) as (l & Hl & Hcl & Htl);
    [done|lia..|].
  destruct (IH (j - (k + 1))%nat ltac:(lia) (k + 1)%nat j)
    as (r & Hr & Hcr & Htr); [done|lia..|].
  exists (Prod l r). split_and!; [by econstructor| |by apply renders_node].
  rewrite (cost_Prod dims l r i k j) by done.
  rewrite Hcl, Hcr, <-Hv. done.
Qed.

Lemma run_optimal_print dims :
  valid 1 dims → costs_below INT_MAX dims = true →
  ∃ e, spans e 1 (n (run dims))
       ∧ cost dims e = getMinCost (run dims)
       ∧ is_min_cost dims 1 (n (run dims)) (cost dims e)
       ∧ ∀ fuel out, (n (run dims) ≤ fuel)%nat →
           printOptimalParenthesis fuel (run dims) 1 (n (run dims)) out
           = Some (out +:+ paren_text e).
Proof.
  intros Hvalid Hlt. pose proof Hvalid as [Hlen Hpos].
  assert (costs_below (INT_MAX + 1) dims = true) as Hfit
    by (apply (costs_below_weaken INT_MAX); [lia|done]).
  rewrite n_run.
  destruct (run_optimal_tree dims 1 (length dims - 1) Hvalid Hlt)
    as (e & He & Hc & Htxt); [lia..|].
  exists e. unfold getMinCost. rewrite n_run.
  rewrite (run_m_opt dims Hpos Hfit) by lia.
  split_and!; [done..| |].
  - rewrite Hc. apply opt_is_min_cost. lia.
  - intros fuel out Hfuel. apply print_renders; [done|].
    apply print_terminates; [|lia..].
    intros a b Ha Hab Hb. apply run_s_bounds; [done..|lia|rewrite n_run; lia].
Qed.

(** X4: for a sequence of positive dimensions all of whose split costs are
    below INT_MAX, and every sub-chain A_i ... A_j of the chain, what
    printOptimalParenthesis(i, j) writes is the text of an optimal
    parenthesization of the sub-chain: a full parenthesization of
    A_i ... A_j whose number of scalar multiplications is m[i][j], the least
    over all parenthesizations of the sub-chain.  With i = 1 and j = n this
    is the text that the program shows, and its cost is what getMinCost
    returns. *)
Theorem printOptimalParenthesis_optimal dims i j :
  valid 1 dims → costs_below INT_MAX dims = true →
  (1 ≤ i ≤ j)%nat → (j ≤ n (run dims))%nat →
  ∃ e, spans e i j
       ∧ cost dims e = tget (m (run dims)) i j
       ∧ is_min_cost dims i j (cost dims e)
       ∧ ∀ fuel out, (j - i < fuel)%nat →
           printOptimalParenthesis fuel (run dims) i j out
           = Some (out +:+ paren_text e).
Proof.
  intros Hvalid Hlt Hij Hj. pose proof Hvalid as [Hlen Hpos].
  assert (costs_below (INT_MAX + 1) dims = true) as Hfit
    by (apply (costs_below_weaken INT_MAX); [lia|done]).
  rewrite n_run in Hj.
  destruct (run_optimal_tree dims i j Hvalid Hlt)
    as (e & He & Hc & Htxt); [lia..|].
  exists e. rewrite (run_m_opt dims Hpos Hfit) by lia.
  split_and!; [done..| |].
  - rewrite Hc. apply opt_is_min_cost. lia.
  - intros fuel out Hfuel. apply print_renders; [done|].
    apply print_terminates; [|lia..].
    intros a b Ha Hab Hb. apply run_s_bounds; [done..|lia|rewrite n_run; lia].
Qed.

Lemma printOptimalParenthesis_optimal_witness :
  ∃ e, spans e 2 4
       ∧ cost [10; 20; 30; 40; 30] e = tget (m (run [10; 20; 30; 40; 30])) 2 4
       ∧ is_min_cost [10; 20; 30; 40; 30] 2 4 (cost [10; 20; 30; 40; 30] e)
       ∧ ∀ fuel out, (4 - 2 < fuel)%nat →
           printOptimalParenthesis fuel (run [10; 20; 30; 40; 30]) 2 4 out
           = Some (out +:+ paren_text e).
Proof.
  apply (printOptimalParenthesis_optimal [10; 20; 30; 40; 30] 2 4).
  - valid_dims.
  - vm_compute. reflexivity.
  - lia.
  - vm_compute. lia.
Defined.

(** ** A bound on the dimensions that excludes overflow *)

Lemma costs_below_intro B P :
  (∀ i j k, (1 ≤ i ≤ k)%nat → (k < j)%nat → (j + 1 ≤ length P)%nat →
            split_cost P i j k < B) →
  costs_below B P = true.
Proof.
  intros Hall. unfold costs_below.
  apply forallb_forall. intros i Hi%in_seq.
  apply forallb_forall. intros j Hj%in_seq.
  apply forallb_forall. intros k Hk%in_seq.
  apply Z.ltb_lt, Hall; lia.
Qed.

Lemma dims_within_lookup lo hi P k :
  dims_within lo hi P → (k < length P)%nat → lo ≤ P !!! k ≤ hi.
Proof. intros HP Hk. by apply HP, list_elem_of_lookup_total_2. Qed.

Lemma dims_within_positive hi P : dims_within 1 hi P → positive P = true.
Proof.
  intros HP. apply forallb_forall. intros d Hd%list_elem_of_In.
  apply Z.ltb_lt. specialize (HP d Hd). lia.
Qed.

(** A parenthesization of [A_i ... A_j] makes [j - i] products, each of at
    most [B^3] multiplications. *)
Lemma cost_upper B P e i j :
  dims_within 1 B P → spans e i j → (1 ≤ i)%nat → (j + 1 ≤ length P)%nat →
  cost P e ≤ Z.of_nat (j - i) * B ^ 3.
Proof.
  intros HP He. induction He as [i|l r i k j Hl IHl Hr IHr]; intros Hi Hj.
  - simpl. lia.
  - apply spans_le in Hl as Hik. apply spans_le in Hr as Hkj.
    rewrite (cost_Prod P l r i k j) by done.
    specialize (IHl Hi ltac:(lia)). specialize (IHr ltac:(lia) Hj).
    pose proof (dims_within_lookup 1 B P (i - 1) HP ltac:(lia)).
    pose proof (dims_within_lookup 1 B P k HP ltac:(lia)).
    pose proof (dims_within_lookup 1 B P j HP ltac:(lia)).
    assert (P !!! (i - 1)%nat * P !!! k ≤ B * B) by nia.
    assert (P !!! (i - 1)%nat * P !!! k * P !!! j ≤ B * B * B) by nia.
    replace (B ^ 3) with (B * B * B) by ring.
    replace (Z.of_nat (j - i))
      with (Z.of_nat (k - i) + Z.of_nat (j - (k + 1)) + 1) by lia.
    replace (B ^ 3) with (B * B * B) in IHl, IHr by ring. nia.
Qed.

Lemma split_cost_upper B P i j k :
  dims_within 1 B P → (1 ≤ i ≤ k)%nat → (k < j)%nat → (j + 1 ≤ length P)%nat →
  split_cost P i j k ≤ Z.of_nat (j - i) * B ^ 3.
Proof.
  intros HP Hi Hk Hj.
  destruct (opt_is_min_cost P i k) as [(l & Hl & Hcl) _]; [lia|].
  destruct (opt_is_min_cost P (k + 1) j) as [(r & Hr & Hcr) _]; [lia|].
  pose proof (cost_upper B P (Prod l r) i j HP
                ltac:(by econstructor) ltac:(lia) Hj) as Hup.
  rewrite (cost_Prod P l r i k j) in Hup by done.
  unfold split_cost. by rewrite <-Hcl, <-Hcr.
Qed.

(** X5: if every dimension of a chain of n >= 1 matrices lies in 1 .. B and
    (n - 1) * B^3 is below INT_MAX, then no cost overflows: getMinCost returns
    the least cost over all parenthesizations and printOptimalParenthesis(1, n)
    returns.  (15 matrices of dimensions up to 535 satisfy the bound.) *)
Theorem getMinCost_exact_within dims B :
  (2 ≤ length dims)%nat → dims_within 1 B dims →
  Z.of_nat (length dims - 2) * B ^ 3 < INT_MAX →
  costs_below INT_MAX dims = true
  ∧ is_min_cost dims 1 (n (run dims)) (getMinCost (run dims))
  ∧ ∀ out, is_Some (printOptimalParenthesis (n (run dims)) (run dims) 1
                      (n (run dims)) out).
Proof.
  intros Hlen HB Hbound.
  assert (dims ≠ []) as Hne by (intros ->; simpl in Hlen; lia).
  assert (1 ≤ B) as HB1.
  { destruct dims as [|d dims]; [done|].
    specialize (HB d ltac:(left)). lia. }
  assert (costs_below INT_MAX dims = true) as Hlt.
  { apply costs_below_intro. intros i j k Hi Hk Hj.
    pose proof (split_cost_upper B dims i j k HB Hi Hk Hj) as Hup.
    assert (Z.of_nat (j - i) * B ^ 3 ≤ Z.of_nat (length dims - 2) * B ^ 3)
      by (apply Z.mul_le_mono_nonneg_r; [apply Z.pow_nonneg|]; lia).
    lia. }
  assert (valid 1 dims) as Hvalid
    by (split; [lia|by eapply dims_within_positive]).
  assert (costs_below (INT_MAX + 1) dims = true) as Hfit
    by (apply (costs_below_weaken INT_MAX); [lia|done]).
  split_and!; [done| |].
  - unfold getMinCost. rewrite n_run.
    rewrite (run_m_opt dims (proj2 Hvalid) Hfit) by lia.
    apply opt_is_min_cost. lia.
  - intros out. rewrite n_run. apply print_terminates; [|lia..].
    intros a b Ha Hab Hb. apply run_s_bounds; [done..|lia|rewrite n_run; lia].
Qed.

Lemma getMinCost_exact_within_witness :
  costs_below INT_MAX [10; 20; 30; 40; 30] = true
  ∧ is_min_cost [10; 20; 30; 40; 30] 1 (n (run [10; 20; 30; 40; 30]))
      (getMinCost (run [10; 20; 30; 40; 30]))
  ∧ ∀ out, is_Some (printOptimalParenthesis (n (run [10; 20; 30; 40; 30]))
                      (run [10; 20; 30; 40; 30]) 1
                      (n (run [10; 20; 30; 40; 30])) out).
Proof.
  apply (getMinCost_exact_within [10; 20; 30; 40; 30] 40).
  - simpl. lia.
  - intros d Hd. repeat (apply elem_of_cons in Hd as [->|Hd]; [lia|]).
    by apply elem_of_nil in Hd.
  - vm_compute. reflexivity.
Defined.

(** ** generateRandomDimensions and the random branch of main *)

(** Storing [f i] at every index in turn fills the vector with the values of
    [f]. *)
Lemma fill_loop_prefix (f : nat → Z) N x k :
  (k ≤ N)%nat →
  foldl (λ P i, <[i := f i]> P) (replicate N x) (seq 0 k)
  = map f (seq 0 k) ++ replicate (N - k) x.
Proof.
  induction k as [|k IH]; intros Hk.
  - simpl. by rewrite Nat.sub_0_r.
  - rewrite seq_S, foldl_app, IH by lia. simpl.
    rewrite map_app. simpl.
    replace (N - k)%nat with (S (N - S k)) by lia. rewrite replicate_S.
    rewrite <-(Nat.add_0_r k) at 1.
    replace k with (length (map f (seq 0 k))) at 1
      by (by rewrite length_map, length_seq).
    rewrite insert_app_r. simpl. by rewrite <-app_assoc.
Qed.

Lemma fill_loop (f : nat → Z) N x :
  foldl (λ P i, <[i := f i]> P) (replicate N x) (seq 0 N) = map f (seq 0 N).
Proof.
  rewrite fill_loop_prefix by done. rewrite Nat.sub_diag. simpl.
  by rewrite app_nil_r.
Qed.

(** X6: generateRandomDimensions(n, minDim, maxDim) with n >= -1 and
    minDim <= maxDim (both of them ints, their difference below INT_MAX)
    returns a vector of n + 1 entries, every one of them in
    minDim .. maxDim, for whatever values rand() returns (they are not
    negative); it calls rand() n + 1 times. *)
Theorem generateRandomDimensions_within rand c nn minDim maxDim :
  (∀ k, 0 ≤ rand k) →
  -1 ≤ nn < INT_MAX →
  - 2 ^ 31 ≤ minDim → minDim ≤ maxDim → maxDim ≤ INT_MAX →
  maxDim - minDim < INT_MAX →
  ∃ dims,
    generateRandomDimensions rand c nn minDim maxDim
    = Some (dims, (c + Z.to_nat (nn + 1))%nat)
    ∧ length dims = Z.to_nat (nn + 1)
    ∧ dims_within minDim maxDim dims.
Proof.
  intros Hrand Hn Hmin Hle Hmax Hdiff. unfold generateRandomDimensions.
  unfold add32, sub32, INT_MAX in *.
  rewrite (wrap32_id (nn + 1)) by (unfold INT_MAX; lia).
  rewrite (wrap32_id (maxDim - minDim)) by (unfold INT_MAX; lia).
  rewrite (wrap32_id (maxDim - minDim + 1)) by (unfold INT_MAX; lia).
  rewrite (proj2 (Z.ltb_ge (nn + 1) 0)) by lia.
  rewrite (proj2 (Z.eqb_neq (maxDim - minDim + 1) 0)) by lia.
  rewrite andb_false_r. rewrite fill_loop.
  eexists. split; [done|]. split; [by rewrite length_map, length_seq|].
  intros d (i & <- & _)%list_elem_of_In%in_map_iff.
  pose proof (Z.rem_bound_pos (rand (c + i)%nat) (maxDim - minDim + 1)
                (Hrand _) ltac:(lia)).
  rewrite wrap32_id by (unfold INT_MAX; lia). lia.
Qed.

Lemma generateRandomDimensions_within_witness :
  ∃ dims,
    generateRandomDimensions (λ k, Z.of_nat k) 0 3 1 1000
    = Some (dims, (0 + Z.to_nat (3 + 1))%nat)
    ∧ length dims = Z.to_nat (3 + 1)
    ∧ dims_within 1 1000 dims.
Proof.
  apply (generateRandomDimensions_within (λ k, Z.of_nat k) 0 3 1 1000).
  - intros k. lia.
  - unfold INT_MAX. lia.
  - lia.
  - lia.
  - unfold INT_MAX. lia.
  - unfold INT_MAX. lia.
Defined.

Lemma main_input_random rand cin cout :
  in_mode cin ≠ 1 → (∀ k, 0 ≤ rand k) →
  ∃ dims cout',
    main_input rand cin cout
    = Some (5 + Z.rem (rand 0%nat) 11, dims, cout')
    ∧ dims = map (λ i, 1 + Z.rem (rand (1 + i)%nat) 1000)
               (seq 0 (Z.to_nat (5 + Z.rem (rand 0%nat) 11 + 1)))
    ∧ 0 ≤ Z.rem (rand 0%nat) 11 ≤ 10.
Proof.
  intros Hmode Hrand. unfold main_input.
  rewrite (proj2 (Z.eqb_neq _ _) Hmode).
  pose proof (Z.rem_bound_pos (rand 0%nat) 11 (Hrand _) ltac:(lia)) as Hrem.
  assert (0 ≤ Z.rem (rand 0%nat) 11 ≤ 10) as Hrem' by lia.
  unfold add32 at 1 2 3. rewrite (wrap32_id (5 + _)) by (unfold INT_MAX; lia).
  set (nM := 5 + Z.rem (rand 0%nat) 11) in *.
  unfold generateRandomDimensions.
  unfold add32, sub32.
  rewrite (wrap32_id (nM + 1)) by (unfold INT_MAX; lia).
  rewrite (proj2 (Z.ltb_ge (nM + 1) 0)) by lia.
  change (wrap32 (wrap32 (1000 - 1) + 1)) with 1000.
  change (1000 =? 0) with false. rewrite andb_false_r.
  rewrite fill_loop. cbn [mbind option_bind].
  eexists _, _. split; [reflexivity|]. split; [|done].
  apply map_ext_in. intros i _.
  pose proof (Z.rem_bound_pos (rand (1 + i)%nat) 1000 (Hrand _) ltac:(lia)).
  apply wrap32_id. unfold INT_MAX. lia.
Qed.

(** X7: when the mode that was read is not 1, main makes between 5 and 15
    matrices and gives the optimizer numMatrices + 1 dimensions, each in
    1 .. 1000, for whatever values rand() returns: a sequence of positive
    dimensions for at least five matrices. *)
Theorem main_input_random_valid rand cin cout :
  in_mode cin ≠ 1 → (∀ k, 0 ≤ rand k) →
  ∃ numMatrices dims cout',
    main_input rand cin cout = Some (numMatrices, dims, cout')
    ∧ 5 ≤ numMatrices ≤ 15
    ∧ length dims = Z.to_nat (numMatrices + 1)
    ∧ dims_within 1 1000 dims
    ∧ valid 5 dims.
Proof.
  intros Hmode Hrand.
  destruct (main_input_random rand cin cout Hmode Hrand)
    as (dims & cout' & Heq & Hdims & Hrem).
  exists (5 + Z.rem (rand 0%nat) 11), dims, cout'.
  assert (length dims = Z.to_nat (5 + Z.rem (rand 0%nat) 11 + 1)) as Hlen
    by (by rewrite Hdims, length_map, length_seq).
  assert (dims_within 1 1000 dims) as Hwithin.
  { rewrite Hdims. intros d (i & <- & _)%list_elem_of_In%in_map_iff.
    pose proof (Z.rem_bound_pos (rand (1 + i)%nat) 1000 (Hrand _) ltac:(lia)).
    lia. }
  split_and!; [done|lia|lia|done|done|].
  split; [lia|by eapply dims_within_positive].
Qed.

Lemma main_input_random_valid_witness :
  ∃ numMatrices dims cout',
    main_input (λ k, Z.of_nat k) (Input 2 0 (λ _, 0) "n") ""
    = Some (numMatrices, dims, cout')
    ∧ 5 ≤ numMatrices ≤ 15
    ∧ length dims = Z.to_nat (numMatrices + 1)
    ∧ dims_within 1 1000 dims
    ∧ valid 5 dims.
Proof.
  apply (main_input_random_valid (λ k, Z.of_nat k) (Input 2 0 (λ _, 0) "n") "").
  - simpl. lia.
  - intros k. lia.
Defined.

(** X8: nothing keeps the costs of the random branch in the range of int.
    If rand() returns 0 and then 999 at every call (values in 0 .. 32767),
    main draws numMatrices = 5 and the dimensions
    [1000, 1000, 1000, 1000, 1000, 1000], five matrices of 1000 x 1000;
    their product takes 4000000000 multiplications at least, and getMinCost
    returns -294967296. *)
Theorem main_input_random_overflow cin cout :
  in_mode cin ≠ 1 →
  (∀ k : nat, 0 ≤ match k with O => 0 | S _ => 999 end ≤ 32767)
  ∧ ∃ cout',
      main_input (λ k, match k with O => 0 | S _ => 999 end) cin cout
      = Some (5, [1000; 1000; 1000; 1000; 1000; 1000], cout')
      ∧ is_min_cost [1000; 1000; 1000; 1000; 1000; 1000] 1
          (n (run [1000; 1000; 1000; 1000; 1000; 1000])) 4000000000
      ∧ getMinCost (run [1000; 1000; 1000; 1000; 1000; 1000]) = -294967296.
Proof.
  intros Hmode.
  set (rand := λ k : nat, match k with O => 0 | S _ => 999 end).
  assert (∀ k, 0 ≤ rand k ≤ 32767) as Hrand by (intros [|k]; simpl; lia).
  split; [done|].
  destruct (main_input_random rand cin cout Hmode)
    as (dims & cout' & Heq & Hdims & _); [intros k; apply Hrand|].
  exists cout'. split_and!.
  - rewrite Heq, Hdims. reflexivity.
  - apply (opt_is_min_cost [1000; 1000; 1000; 1000; 1000; 1000] 1 5). lia.
  - by vm_compute.
Qed.

Lemma main_input_random_overflow_witness :
  (∀ k : nat, 0 ≤ match k with O => 0 | S _ => 999 end ≤ 32767)
  ∧ ∃ cout',
      main_input (λ k, match k with O => 0 | S _ => 999 end)
        (Input 2 0 (λ _, 0) "n") ""
      = Some (5, [1000; 1000; 1000; 1000; 1000; 1000], cout')
      ∧ is_min_cost [1000; 1000; 1000; 1000; 1000; 1000] 1
          (n (run [1000; 1000; 1000; 1000; 1000; 1000])) 4000000000
      ∧ getMinCost (run [1000; 1000; 1000; 1000; 1000; 1000]) = -294967296.
Proof.
  apply (main_input_random_overflow (Input 2 0 (λ _, 0) "n") "").
  simpl. lia.
Defined.

(** ** saveToFile *)

Lemma append_nil_r (a : string) : a +:+ "" = a.
Proof.
  induction a as [|x a IH]; [done|].
  change (String x (a +:+ "") = String x a). by rewrite IH.
Qed.

(** A loop that appends a text for each element appends the texts. *)
Lemma foldl_append {A} (f : string → A → string) (g : A → string) l c :
  (∀ c x, x ∈ l → f c x = c +:+ g x) →
  foldl f c l = c +:+ foldr (λ x txt, g x +:+ txt) "" l.
Proof.
  revert c. induction l as [|x l IH]; intros c Hf; simpl.
  - by rewrite append_nil_r.
  - rewrite IH by (intros c' y Hy; apply Hf; by right).
    rewrite Hf by left. by rewrite append_assoc.
Qed.

Lemma dims_loop fout l :
  foldl (λ fout p, fout +:+ decimalZ p +:+ " ") fout l = fout +:+ dims_text l.
Proof.
  rewrite (foldl_append _ (λ p, decimalZ p +:+ " ")) by done. f_equal.
  induction l as [|p l IH]; [done|].
  cbn [foldr dims_text]. rewrite IH. unfold dims_text. cbn [foldr].
  by rewrite append_assoc.
Qed.

Lemma saveToFile_run dims e fuel filename opened cout :
  (n (run dims) ≤ 35)%nat →
  printOptimalParenthesis fuel (run dims) 1 (n (run dims))
    ("Matrix dimensions (P): " +:+ dims_text dims +:+ nl +:+ nl
     +:+ "Minimum multiplication cost: "
     +:+ decimalZ (getMinCost (run dims)) +:+ nl
     +:+ "Optimal parenthesization: ")
  = Some (("Matrix dimensions (P): " +:+ dims_text dims +:+ nl +:+ nl
           +:+ "Minimum multiplication cost: "
           +:+ decimalZ (getMinCost (run dims)) +:+ nl
           +:+ "Optimal parenthesization: ") +:+ paren_text e) →
  saveToFile fuel (run dims) filename opened cout
  = Some (if opened
          then Some (report dims (getMinCost (run dims)) e (n (run dims))
                       (Catalan (n (run dims))))
          else None,
          cout +:+ nl +:+ "Results saved to file: " +:+ filename +:+ nl).
Proof.
  intros Hn Hprint. unfold saveToFile. rewrite P_run, dims_loop.
  fold (getMinCost (run dims)).
  rewrite !append_assoc. rewrite !append_assoc in Hprint.
  rewrite Hprint. cbn [mbind option_bind].
  rewrite catalanNumber_Catalan by done.
  unfold report. by rewrite !append_assoc.
Qed.

(** X9: for a sequence of positive dimensions of at most 35 matrices all of
    whose split costs are below INT_MAX, saveToFile returns and the file that
    it writes holds, in this order: the line "Matrix dimensions (P): " with
    the dimensions, each followed by a space; an empty line; "Minimum
    multiplication cost: " with the least cost over all parenthesizations;
    "Optimal parenthesization: " with the text of a parenthesization of that
    cost; "Catalan number (n = n): " with the Catalan number C(n). *)
Theorem saveToFile_report dims :
  valid 1 dims → costs_below INT_MAX dims = true → (n (run dims) ≤ 35)%nat →
  ∃ e, spans e 1 (n (run dims))
       ∧ is_min_cost dims 1 (n (run dims)) (cost dims e)
       ∧ ∀ fuel filename cout, (n (run dims) ≤ fuel)%nat →
           saveToFile fuel (run dims) filename true cout
           = Some (Some (report dims (cost dims e) e (n (run dims))
                           (Catalan (n (run dims)))),
                   cout +:+ nl +:+ "Results saved to file: " +:+ filename
                        +:+ nl).
Proof.
  intros Hvalid Hlt Hn.
  destruct (run_optimal_print dims Hvalid Hlt) as (e & He & Hc & Hmin & Hprint).
  exists e. split_and!; [done..|].
  intros fuel filename cout Hfuel. rewrite Hc.
  apply (saveToFile_run dims e fuel filename true cout Hn).
  by apply Hprint.
Qed.

Lemma saveToFile_report_witness :
  ∃ e, spans e 1 (n (run [10; 20; 30; 40; 30]))
       ∧ is_min_cost [10; 20; 30; 40; 30] 1 (n (run [10; 20; 30; 40; 30]))
           (cost [10; 20; 30; 40; 30] e)
       ∧ ∀ fuel filename cout, (n (run [10; 20; 30; 40; 30]%Z) ≤ fuel)%nat →
           saveToFile fuel (run [10; 20; 30; 40; 30]) filename true cout
           = Some (Some (report [10; 20; 30; 40; 30]
                           (cost [10; 20; 30; 40; 30] e) e
                           (n (run [10; 20; 30; 40; 30]))
                           (Catalan (n (run [10; 20; 30; 40; 30])))),
                   cout +:+ nl +:+ "Results saved to file: " +:+ filename
                        +:+ nl).
Proof.
  apply (saveToFile_report [10; 20; 30; 40; 30]).
  - valid_dims.
  - vm_compute. reflexivity.
  - vm_compute. lia.
Defined.

(** ** displayTables *)

Lemma foldl_ext_in {A B} (f g : A → B → A) l a :
  (∀ a x, x ∈ l → f a x = g a x) → foldl f a l = foldl g a l.
Proof.
  revert a. induction l as [|x l IH]; intros a Hfg; [done|]. simpl.
  rewrite Hfg by left. apply IH. intros a' y Hy. apply Hfg. by right.
Qed.

Lemma display_m_row_append o cout i :
  display_m_row o cout i = cout +:+ display_m_row o "" i.
Proof.
  unfold display_m_row.
  rewrite !(foldl_append _ (λ j, if (j <? i)%nat then "   -   "
                                 else decimalZ (tget (m o) i j) +:+ tab))
    by (intros c j _; by destruct (j <? i)%nat).
  by rewrite append_empty_l, append_assoc.
Qed.

Lemma display_s_row_append o cout i :
  display_s_row o cout i = cout +:+ display_s_row o "" i.
Proof.
  unfold display_s_row.
  rewrite !(foldl_append _ (λ j, if (j <=? i)%nat then "  -  "
                                 else decimal (tget (s o) i j) +:+ tab))
    by (intros c j _; by destruct (j <=? i)%nat).
  by rewrite append_empty_l, append_assoc.
Qed.

(** [displayTables] adds to what [cout] holds. *)
Lemma displayTables_append o show cout :
  displayTables o show cout = cout +:+ displayTables o show "".
Proof.
  unfold displayTables. destruct show; cbn [negb]; [|by rewrite append_nil_r].
  cbv zeta.
  rewrite !(foldl_append (display_s_row o) (display_s_row o ""))
    by (intros; apply display_s_row_append).
  rewrite !(foldl_append (display_m_row o) (display_m_row o ""))
    by (intros; apply display_m_row_append).
  by rewrite !append_assoc, append_empty_l.
Qed.

(** X11: what displayTables writes depends on n, on the entries m[i][j]
    with 1 <= i <= j <= n and on the entries s[i][j] with 1 <= i < j <= n,
    and on nothing else of the object: row 0, column 0, the entries of m
    below the diagonal and those of s on and below it are never shown. *)
Theorem displayTables_upper_triangle o o' show cout :
  n o = n o' →
  (∀ i j, (1 ≤ i)%nat → (i ≤ j)%nat → (j ≤ n o)%nat →
          tget (m o) i j = tget (m o') i j) →
  (∀ i j, (1 ≤ i)%nat → (i < j)%nat → (j ≤ n o)%nat →
          tget (s o) i j = tget (s o') i j) →
  displayTables o show cout = displayTables o' show cout.
Proof.
  intros Hn Hm Hs. unfold displayTables. destruct show; cbn [negb]; [|done].
  cbv zeta. rewrite <- Hn.
  assert (∀ c i, i ∈ seq 1 (n o) → display_m_row o c i = display_m_row o' c i)
    as Hrows_m.
  { intros c i Hi%list_elem_of_In%in_seq. unfold display_m_row.
    rewrite <- Hn. f_equal. apply foldl_ext_in.
    intros c' j Hj%list_elem_of_In%in_seq.
    destruct (j <? i)%nat eqn:Hji; [done|].
    apply Nat.ltb_ge in Hji. rewrite Hm by lia. done. }
  assert (∀ c i, i ∈ seq 1 (n o) → display_s_row o c i = display_s_row o' c i)
    as Hrows_s.
  { intros c i Hi%list_elem_of_In%in_seq. unfold display_s_row.
    rewrite <- Hn. f_equal. apply foldl_ext_in.
    intros c' j Hj%list_elem_of_In%in_seq.
    destruct (j <=? i)%nat eqn:Hji; [done|].
    apply Nat.leb_gt in Hji. rewrite Hs by lia. done. }
  rewrite (foldl_ext_in (display_m_row o) (display_m_row o')) by done.
  by apply foldl_ext_in.
Qed.

Lemma displayTables_upper_triangle_witness :
  displayTables (run [10; 20; 30]) true ""
  = displayTables
      (Build [] (tset (m (run [10; 20; 30])) 2 1 77)
             (tset (s (run [10; 20; 30])) 1 1 5%nat) 2)
      true "".
Proof.
  apply (displayTables_upper_triangle (run [10; 20; 30])
           (Build [] (tset (m (run [10; 20; 30])) 2 1 77)
                  (tset (s (run [10; 20; 30])) 1 1 5%nat) 2)).
  - reflexivity.
  - intros i j Hi Hij Hj. cbn [m]. symmetry. apply tget_tset_ne.
    intros [= <- <-]. lia.
  - intros i j Hi Hij Hj. cbn [s]. symmetry. apply tget_tset_ne.
    intros [= <- <-]. lia.
Defined.

(** ** main *)

(** What [main_input] reads does not depend on what [cout] holds, and what it
    writes is added to it. *)
Lemma main_input_append rand cin cout numMatrices dims txt :
  main_input rand cin "" = Some (numMatrices, dims, txt) →
  main_input rand cin cout = Some (numMatrices, dims, cout +:+ txt).
Proof.
  unfold main_input. destruct (in_mode cin =? 1).
  - cbv zeta. destruct (add32 (in_numMatrices cin) 1 <? 0); [done|].
    intros [= <- <- <-]. by rewrite !append_empty_l, !append_assoc.
  - destruct (generateRandomDimensions rand 1 _ 1 1000) as [[P c]|]; [|done].
    cbn [mbind option_bind]. cbv zeta.
    rewrite !(foldl_append _ (λ val, decimalZ val +:+ " ")) by done.
    intros [= <- <- <-]. by rewrite !append_empty_l, !append_assoc.
Qed.

(** When [main_input] leaves a [P] that is not empty, [numMatrices] is the
    number of its entries less one. *)
Lemma main_input_numMatrices rand cin cout numMatrices dims cout' :
  main_input rand cin cout = Some (numMatrices, dims, cout') →
  - 2 ^ 31 ≤ in_numMatrices cin ≤ INT_MAX → (∀ k, 0 ≤ rand k) →
  (1 ≤ length dims)%nat →
  numMatrices = Z.of_nat (length dims - 1).
Proof.
  intros Hin Hint Hrand Hlen.
  destruct (decide (in_mode cin = 1)) as [Hmode|Hmode].
  - unfold main_input in Hin. rewrite Hmode in Hin.
    change (1 =? 1) with true in Hin. cbv zeta in Hin.
    destruct (add32 (in_numMatrices cin) 1 <? 0) eqn:Hsize; [done|].
    injection Hin as <- <- <-. apply Z.ltb_ge in Hsize.
    rewrite fill_loop in Hlen. rewrite fill_loop.
    rewrite length_map, length_seq in *.
    destruct (decide (in_numMatrices cin = INT_MAX)) as [Hmax|Hmax].
    + rewrite Hmax in Hsize. vm_compute in Hsize. by destruct Hsize.
    + unfold add32 in *.
      rewrite wrap32_id in * by (unfold INT_MAX in *; lia). lia.
  - destruct (main_input_random rand cin cout Hmode Hrand)
      as (dims' & out & Hin' & Hdims & Hrem).
    rewrite Hin in Hin'. injection Hin' as -> -> ->.
    rewrite Hdims, length_map, length_seq. lia.
Qed.

(** X12: main, when the dimensions that it has read or drawn are positive,
    are those of at most 35 matrices and have all their split costs below
    INT_MAX (numMatrices being an int and rand() never negative).  It returns,
    and it has written on cout, after the menu and the dialogue on the input:
    "Minimum number of multiplications: " with the least cost over all
    parenthesizations, "Optimal parenthesization: " with the text of a
    parenthesization of that cost, "Catalan number: " with C(n), the
    question on the tables, the tables if the answer is y or Y, and the name
    of the file; the file, if it could be opened, holds the report for the
    same cost and parenthesization. *)
Theorem main_report fuel rand cin opened numMatrices dims txt :
  main_input rand cin "" = Some (numMatrices, dims, txt) →
  - 2 ^ 31 ≤ in_numMatrices cin ≤ INT_MAX → (∀ k, 0 ≤ rand k) →
  valid 1 dims → costs_below INT_MAX dims = true →
  (length dims - 1 ≤ 35)%nat → (length dims - 1 ≤ fuel)%nat →
  ∃ e, spans e 1 (length dims - 1)
       ∧ is_min_cost dims 1 (length dims - 1) (cost dims e)
       ∧ main fuel rand cin opened
         = Some ("Matrix Chain Multiplication" +:+ nl
                 +:+ "1. Manual input" +:+ nl
                 +:+ "2. Random input" +:+ nl
                 +:+ "Choose input mode (1 or 2): " +:+ txt +:+ nl
                 +:+ "Minimum number of multiplications: "
                 +:+ decimalZ (cost dims e) +:+ nl
                 +:+ "Optimal parenthesization: " +:+ paren_text e +:+ nl
                 +:+ "Catalan number: "
                 +:+ decimalZ (Catalan (length dims - 1)) +:+ nl
                 +:+ nl +:+ "Show DP tables? (y/n): "
                 +:+ (if bool_decide (in_showTables cin = "y"%char
                                      ∨ in_showTables cin = "Y"%char)
                      then displayTables (run dims) true "" else "")
                 +:+ nl +:+ "Results saved to file: "
                 +:+ "matrix_chain_output.txt" +:+ nl,
                 if opened
                 then Some (report dims (cost dims e) e (length dims - 1)
                              (Catalan (length dims - 1)))
                 else None).
Proof.
  intros Hin Hint Hrand Hvalid Hlt H35 Hfuel.
  destruct (run_optimal_print dims Hvalid Hlt)
    as (e & He & Hc & Hmin & Hprint).
  destruct Hvalid as [Hlen Hpos].
  pose proof (main_input_numMatrices _ _ _ _ _ _ Hin Hint Hrand
                ltac:(lia)) as HnM.
  exists e. rewrite <- !(n_run dims). split_and!; [done..|].
  unfold main. cbv zeta.
  rewrite (main_input_append _ _ _ _ _ _ Hin). cbn [mbind option_bind].
  rewrite (proj2 (Nat.ltb_ge _ _)) by lia.
  fold (run dims). unfold printOptimalParenthesisToConsole.
  rewrite Hprint by (rewrite n_run; lia). cbn [mbind option_bind].
  rewrite HnM, catalanNumber_Catalan by done.
  rewrite (saveToFile_run dims e fuel _ opened _)
    by (rewrite ?n_run; try done; apply Hprint; rewrite n_run; lia).
  cbn [mbind option_bind]. rewrite <- Hc, <- (n_run dims).
  f_equal. f_equal.
  destruct (bool_decide _).
  - rewrite displayTables_append. by rewrite !append_assoc.
  - by rewrite !append_assoc, append_empty_l.
Qed.

Lemma main_report_witness :
  ∃ e, spans e 1 (length [10; 20; 30; 40; 30] - 1)
       ∧ is_min_cost [10; 20; 30; 40; 30] 1 (length [10; 20; 30; 40; 30] - 1)
           (cost [10; 20; 30; 40; 30] e)
       ∧ main 4 (λ _, 0)
              (Input 1 4 (λ i, nth i [10; 20; 30; 40; 30] 0) "y") true
         = Some ("Matrix Chain Multiplication" +:+ nl
                 +:+ "1. Manual input" +:+ nl
                 +:+ "2. Random input" +:+ nl
                 +:+ "Choose input mode (1 or 2): "
                 +:+ ("Enter number of matrices: "
                      +:+ "Enter dimensions array P (size = 5):" +:+ nl)
                 +:+ nl
                 +:+ "Minimum number of multiplications: "
                 +:+ decimalZ (cost [10; 20; 30; 40; 30] e) +:+ nl
                 +:+ "Optimal parenthesization: " +:+ paren_text e +:+ nl
                 +:+ "Catalan number: "
                 +:+ decimalZ (Catalan (length [10; 20; 30; 40; 30]%Z - 1))
                 +:+ nl
                 +:+ nl +:+ "Show DP tables? (y/n): "
                 +:+ (if bool_decide
                           (in_showTables
                              (Input 1 4 (λ i, nth i [10; 20; 30; 40; 30] 0)
                                     "y") = "y"%char
                            ∨ in_showTables
                                (Input 1 4 (λ i, nth i [10; 20; 30; 40; 30] 0)
                                       "y") = "Y"%char)
                      then displayTables (run [10; 20; 30; 40; 30]) true ""
                      else "")
                 +:+ nl +:+ "Results saved to file: "
                 +:+ "matrix_chain_output.txt" +:+ nl,
                 Some (report [10; 20; 30; 40; 30]
                         (cost [10; 20; 30; 40; 30] e) e
                         (length [10; 20; 30; 40; 30]%Z - 1)
                         (Catalan (length [10; 20; 30; 40; 30]%Z - 1)))).
Proof.
  apply (main_report 4 (λ _, 0)
           (Input 1 4 (λ i, nth i [10; 20; 30; 40; 30] 0) "y") true
           4 [10; 20; 30; 40; 30]
           ("Enter number of matrices: "
            +:+ "Enter dimensions array P (size = 5):" +:+ nl)).
  - reflexivity.
  - vm_compute. split; discriminate.
  - intros k. lia.
  - valid_dims.
  - vm_compute. reflexivity.
  - simpl. lia.
  - simpl. lia.
Defined.

(** ** catalanNumber and the number of parenthesizations *)

Lemma parens_spans fuel e i j : e ∈ parens fuel i j → spans e i j.
Proof.
  revert e i j. induction fuel as [|fuel IH]; intros e i j; cbn [parens].
  - by intros ?%elem_of_nil.
  - destruct (i =? j)%nat eqn:Hij.
    + apply Nat.eqb_eq in Hij as <-.
      intros ->%list_elem_of_singleton. constructor.
    + intros (k & (l & (r & ->%list_elem_of_singleton & Hr)%list_elem_of_bind
                     & Hl)%list_elem_of_bind & Hk)%list_elem_of_bind.
      apply spans_Prod with k; by apply IH.
Qed.

Lemma spans_parens e i j :
  spans e i j → ∀ fuel, (j - i < fuel)%nat → e ∈ parens fuel i j.
Proof.
  induction 1 as [i|l r i k j Hl IHl Hr IHr]; intros [|fuel] Hfuel;
    try lia; cbn [parens].
  - rewrite Nat.eqb_refl. by apply list_elem_of_singleton.
  - apply spans_le in Hl as Hik. apply spans_le in Hr as Hkj.
    rewrite (proj2 (Nat.eqb_neq i j)) by lia.
    apply list_elem_of_bind. exists k. split.
    + apply list_elem_of_bind. exists l. split; [|apply IHl; lia].
      apply list_elem_of_bind. exists r. split; [|apply IHr; lia].
      by apply list_elem_of_singleton.
    + apply list_elem_of_In, in_seq. lia.
Qed.

Lemma parens_NoDup fuel i j : NoDup (parens fuel i j).
Proof.
  revert i j. induction fuel as [|fuel IH]; intros i j; cbn [parens].
  - constructor.
  - destruct (i =? j)%nat; [apply NoDup_singleton|].
    apply NoDup_bind; [| |apply NoDup_seq].
    + intros k1 k2 e _ _
        (l1 & (r1 & ->%list_elem_of_singleton & _)%list_elem_of_bind
            & Hl1)%list_elem_of_bind
        (l2 & (r2 & [= <- <-]%list_elem_of_singleton & _)%list_elem_of_bind
            & Hl2)%list_elem_of_bind.
      apply parens_spans, spans_lo_hi in Hl1 as [_ <-].
      by apply parens_spans, spans_lo_hi in Hl2 as [_ <-].
    + intros k _. apply NoDup_bind; [| |apply IH].
      * intros l1 l2 e _ _
          (r1 & ->%list_elem_of_singleton & _)%list_elem_of_bind
          (r2 & [= <- <-]%list_elem_of_singleton & _)%list_elem_of_bind.
        done.
      * intros l _. apply NoDup_bind; [| |apply IH].
        -- by intros r1 r2 e _ _ ->%list_elem_of_singleton
             [= <-]%list_elem_of_singleton.
        -- intros r _. apply NoDup_singleton.
Qed.

Lemma sumZ_app l1 l2 : sumZ (l1 ++ l2) = sumZ l1 + sumZ l2.
Proof. induction l1 as [|x l1 IH]; simpl; [done|]. unfold sumZ in *. lia. Qed.

Lemma sumZ_nonneg l : (∀ x, x ∈ l → 0 ≤ x) → 0 ≤ sumZ l.
Proof.
  induction l as [|x l IH]; intros Hl; [done|].
  change (0 ≤ x + sumZ l).
  pose proof (Hl x ltac:(left)). pose proof (IH (λ y Hy, Hl y ltac:(by right))).
  lia.
Qed.

Lemma sumZ_seq_shift (f : nat → Z) i d :
  sumZ (map f (seq i d)) = sumZ (map (λ t, f (i + t)%nat) (seq 0 d)).
Proof.
  induction d as [|d IH]; [done|].
  rewrite !seq_S, !map_app, !sumZ_app, IH. done.
Qed.

Lemma length_bind_sum {A B} (f : A → list B) l :
  Z.of_nat (length (l ≫= f)) = sumZ (map (λ x, Z.of_nat (length (f x))) l).
Proof.
  induction l as [|x l IH]; [done|].
  rewrite bind_cons, length_app. change (sumZ (map ?g (x :: l)))
    with (g x + sumZ (map g l)). lia.
Qed.

Lemma length_bind_pairs {A B C} (g : A → B → C) la lb :
  length (a ← la; b ← lb; [g a b]) = (length la * length lb)%nat.
Proof.
  assert (∀ a, length (b ← lb; [g a b]) = length lb) as Hrow.
  { intros a. induction lb as [|b lb IH]; [done|].
    rewrite bind_cons, length_app, IH. done. }
  induction la as [|a la IH]; [done|].
  rewrite bind_cons, length_app, Hrow, IH. simpl. lia.
Qed.

Lemma Catalan_convolution d :
  (1 ≤ d)%nat →
  Catalan d = sumZ (map (λ t, Catalan t * Catalan (d - 1 - t)) (seq 0 d)).
Proof.
  intros Hd. destruct (decide (d = 1%nat)) as [->|Hne]; [done|].
  apply Catalan_unfold. lia.
Qed.

Lemma parens_length fuel i j :
  (i ≤ j)%nat → (j - i < fuel)%nat →
  Z.of_nat (length (parens fuel i j)) = Catalan (j - i).
Proof.
  revert i j. induction fuel as [|fuel IH]; intros i j Hij Hfuel; [lia|].
  cbn [parens]. destruct (i =? j)%nat eqn:Heq.
  - apply Nat.eqb_eq in Heq as <-. by rewrite Nat.sub_diag.
  - apply Nat.eqb_neq in Heq.
    rewrite length_bind_sum, (Catalan_convolution (j - i)) by lia.
    rewrite sumZ_seq_shift. f_equal. apply map_ext_in. intros t Ht%in_seq.
    rewrite length_bind_pairs, Nat2Z.inj_mul, !IH by lia.
    f_equal; f_equal; lia.
Qed.

Lemma Catalan_successive_35 :
  forallb (λ k, negb (catalan_table 35 !!! k =? catalan_table 35 !!! (k - 1)%nat))
          (seq 2 34) = true.
Proof. by vm_compute. Qed.

Lemma Catalan_pos k : 0 < Catalan k.
Proof.
  induction (lt_wf k) as [k _ IH].
  destruct (decide (k ≤ 1)%nat) as [Hk|Hk]; [by rewrite Catalan_base|].
  rewrite Catalan_unfold by lia.
  destruct k as [|k]; [lia|]. rewrite <- cons_seq.
  change (sumZ (map ?g (0%nat :: ?l))) with (g 0%nat + sumZ (map g l)).
  cbv beta.
  assert (0 ≤ sumZ (map (λ j, Catalan j * Catalan (S k - 1 - j)) (seq 1 k))).
  { apply sumZ_nonneg.
    intros x (j & <- & Hj%in_seq)%list_elem_of_In%in_map_iff.
    pose proof (IH j ltac:(lia)). pose proof (IH (S k - 1 - j)%nat ltac:(lia)).
    lia. }
  pose proof (IH 0%nat ltac:(lia)). pose proof (IH (S k - 1 - 0)%nat ltac:(lia)).
  lia.
Qed.

Lemma Catalan_S_le k : Catalan k ≤ Catalan (S k).
Proof.
  rewrite (Catalan_convolution (S k)) by lia. rewrite <- cons_seq.
  change (sumZ (map ?g (0%nat :: ?l))) with (g 0%nat + sumZ (map g l)).
  cbv beta.
  assert (0 ≤ sumZ (map (λ j, Catalan j * Catalan (S k - 1 - j)) (seq 1 k))).
  { apply sumZ_nonneg.
    intros x (j & <- & Hj%in_seq)%list_elem_of_In%in_map_iff.
    pose proof (Catalan_pos j). pose proof (Catalan_pos (S k - 1 - j)). lia. }
  rewrite (Catalan_base 0) by lia.
  replace (S k - 1 - 0)%nat with k by lia. lia.
Qed.

Lemma Catalan_mono k k' : (k ≤ k')%nat → Catalan k ≤ Catalan k'.
Proof.
  induction 1 as [|k' _ IH]; [done|]. pose proof (Catalan_S_le k'). lia.
Qed.

Lemma wrap64_le z : wrap64 z ≤ LLONG_MAX.
Proof.
  unfold wrap64, LLONG_MAX.
  pose proof (Z.mod_pos_bound (z + 2 ^ 63) (2 ^ 64) ltac:(lia)). lia.
Qed.

(** X13: catalanNumber(n), for 0 <= n <= 35, is the number of the full
    parenthesizations of a chain of n + 1 matrices: the list all_parens 1
    (n + 1) holds exactly the parenthesizations of A_1 ... A_(n+1), each
    once, and catalanNumber(n) is its length.  From n = 2 on it is not the
    number of parenthesizations of a chain of n matrices. *)
Theorem catalanNumber_counts k :
  (k ≤ 35)%nat →
  (∀ e, e ∈ all_parens 1 (k + 1) ↔ spans e 1 (k + 1))
  ∧ NoDup (all_parens 1 (k + 1))
  ∧ catalanNumber (Z.of_nat k) = Z.of_nat (length (all_parens 1 (k + 1)))
  ∧ ((2 ≤ k)%nat →
     catalanNumber (Z.of_nat k) ≠ Z.of_nat (length (all_parens 1 k))).
Proof.
  intros Hk. unfold all_parens. split_and!.
  - intros e. split; [apply parens_spans|].
    intros He. apply spans_parens; [done|lia].
  - apply parens_NoDup.
  - rewrite parens_length, catalanNumber_Catalan by lia. f_equal. lia.
  - intros Hk2. rewrite parens_length, catalanNumber_Catalan by lia.
    pose proof Catalan_successive_35 as Hne.
    rewrite forallb_forall in Hne.
    specialize (Hne k ltac:(apply in_seq; lia)).
    apply negb_true_iff, Z.eqb_neq in Hne.
    rewrite !(catalan_prefix_spec _ _ catalan_table_35) in Hne
      by (vm_compute length; lia).
    done.
Qed.

Lemma catalanNumber_counts_witness :
  (∀ e, e ∈ all_parens 1 (3 + 1) ↔ spans e 1 (3 + 1))
  ∧ NoDup (all_parens 1 (3 + 1))
  ∧ catalanNumber (Z.of_nat 3) = Z.of_nat (length (all_parens 1 (3 + 1)))
  ∧ ((2 ≤ 3)%nat →
     catalanNumber (Z.of_nat 3) ≠ Z.of_nat (length (all_parens 1 3))).
Proof. apply (catalanNumber_counts 3). lia. Defined.

(** X14: for n >= 0, catalanNumber(n) is the Catalan number C(n) exactly
    when n <= 35: for every larger n the value that it returns, a long
    long, is not C(n). *)
Theorem catalanNumber_exact_iff n :
  0 ≤ n → catalanNumber n = Catalan (Z.to_nat n) ↔ n ≤ 35.
Proof.
  intros Hn. split.
  - intros Heq. destruct (decide (n ≤ 35)) as [|Hgt]; [done|]. exfalso.
    rewrite catalanNumber_wrap64 in Heq by lia.
    pose proof (wrap64_le (Catalan (Z.to_nat n))) as Hle.
    pose proof (Catalan_mono 36 (Z.to_nat n) ltac:(lia)) as Hmono.
    rewrite Catalan_36 in Hmono. unfold LLONG_MAX in Hle. lia.
  - intros Hle. rewrite <- (Z2Nat.id n) at 1 by done.
    apply catalanNumber_Catalan. lia.
Qed.

Lemma catalanNumber_exact_iff_witness :
  catalanNumber 36 = Catalan (Z.to_nat 36) ↔ 36 ≤ 35.
Proof. apply (catalanNumber_exact_iff 36). lia. Defined.

(** ** The chain in the opposite order *)

Lemma spans_mirror N e i j :
  spans e i j → (1 ≤ i)%nat → (j ≤ N)%nat →
  spans (mirror N e) (N + 1 - j) (N + 1 - i).
Proof.
  induction 1 as [i|l r i k j Hl IHl Hr IHr]; intros Hi Hj; cbn [mirror].
  - constructor.
  - apply spans_le in Hl as Hik. apply spans_le in Hr as Hkj.
    apply spans_Prod with (N + 1 - (k + 1))%nat; [apply IHr; lia|].
    replace (N + 1 - (k + 1) + 1)%nat with (N + 1 - k)%nat by lia.
    apply IHl; lia.
Qed.

Lemma reverse_lookup_total (P : list Z) N x :
  length P = (N + 1)%nat → (x ≤ N)%nat → reverse P !!! x = P !!! (N - x)%nat.
Proof.
  intros Hlen Hx. rewrite !list_lookup_total_alt, reverse_lookup by lia.
  do 2 f_equal. lia.
Qed.

Lemma cost_mirror P N e i j :
  length P = (N + 1)%nat → spans e i j → (1 ≤ i)%nat → (j ≤ N)%nat →
  cost (reverse P) (mirror N e) = cost P e.
Proof.
  intros Hlen. induction 1 as [i|l r i k j Hl IHl Hr IHr]; intros Hi Hj;
    [done|].
  apply spans_le in Hl as Hik. apply spans_le in Hr as Hkj.
  cbn [mirror cost]. rewrite IHl, IHr by lia.
  destruct (spans_lo_hi _ _ _ Hl) as [-> ->].
  destruct (spans_lo_hi _ _ _ Hr) as [_ ->].
  destruct (spans_lo_hi _ _ _ (spans_mirror N l i k Hl ltac:(lia) ltac:(lia)))
    as [_ ->].
  destruct (spans_lo_hi _ _ _
              (spans_mirror N r (k + 1) j Hr ltac:(lia) ltac:(lia)))
    as [-> ->].
  rewrite !(reverse_lookup_total P N) by lia.
  replace (N - (N + 1 - j - 1))%nat with j by lia.
  replace (N - (N + 1 - (k + 1)))%nat with k by lia.
  replace (N - (N + 1 - i))%nat with (i - 1)%nat by lia.
  ring.
Qed.

Lemma is_min_cost_reverse P N i j c :
  length P = (N + 1)%nat → (1 ≤ i)%nat → (i ≤ j)%nat → (j ≤ N)%nat →
  is_min_cost P i j c → is_min_cost (reverse P) (N + 1 - j) (N + 1 - i) c.
Proof.
  intros Hlen Hi Hij Hj [(e & He & <-) Hall]. split.
  - exists (mirror N e). split; [by apply spans_mirror|].
    by apply (cost_mirror P N e i j).
  - intros e' He'.
    pose proof (spans_mirror N e' _ _ He' ltac:(lia) ltac:(lia)) as Hm.
    replace (N + 1 - (N + 1 - i))%nat with i in Hm by lia.
    replace (N + 1 - (N + 1 - j))%nat with j in Hm by lia.
    specialize (Hall _ Hm).
    rewrite <- (cost_mirror (reverse P) N e' _ _
                  ltac:(by rewrite length_reverse) He') by lia.
    by rewrite reverse_involutive.
Qed.

Lemma opt_reverse P N i j :
  length P = (N + 1)%nat → (1 ≤ i)%nat → (i ≤ j)%nat → (j ≤ N)%nat →
  opt (reverse P) i j = opt P (N + 1 - j) (N + 1 - i).
Proof.
  intros Hlen Hi Hij Hj.
  apply (is_min_cost_unique (reverse P) i j); [apply opt_is_min_cost; lia|].
  pose proof (opt_is_min_cost P (N + 1 - j) (N + 1 - i) ltac:(lia)) as Hmin.
  apply (is_min_cost_reverse P N) in Hmin; [|done|lia..].
  replace (N + 1 - (N + 1 - i))%nat with i in Hmin by lia.
  replace (N + 1 - (N + 1 - j))%nat with j in Hmin by lia.
  done.
Qed.

Lemma split_cost_reverse P N i j k :
  length P = (N + 1)%nat → (1 ≤ i)%nat → (i ≤ k)%nat → (k < j)%nat →
  (j ≤ N)%nat →
  split_cost (reverse P) i j k = split_cost P (N + 1 - j) (N + 1 - i) (N - k).
Proof.
  intros Hlen Hi Hik Hkj Hj. unfold split_cost.
  rewrite !(opt_reverse P N), !(reverse_lookup_total P N) by lia.
  replace (N - k + 1)%nat with (N + 1 - k)%nat by lia.
  replace (N + 1 - (k + 1))%nat with (N - k)%nat by lia.
  replace (N - (i - 1))%nat with (N + 1 - i)%nat by lia.
  replace (N + 1 - j - 1)%nat with (N - j)%nat by lia.
  ring.
Qed.

Lemma costs_below_reverse B P :
  costs_below B P = true → costs_below B (reverse P) = true.
Proof.
  intros HB. apply costs_below_intro. intros i j k Hik Hkj Hj.
  rewrite length_reverse in Hj.
  rewrite (split_cost_reverse P (length P - 1)) by lia.
  apply costs_below_spec; [done|lia..].
Qed.

Lemma positive_reverse P : positive P = true → positive (reverse P) = true.
Proof.
  unfold positive. rewrite !forallb_forall.
  intros Hpos d Hd. apply Hpos, list_elem_of_In, elem_of_reverse.
  by apply list_elem_of_In.
Qed.

(** X15: for a sequence of positive dimensions none of whose split costs
    exceeds INT_MAX, getMinCost returns the same value for the sequence and
    for the sequence reversed (the chain of the transposed matrices, in the
    opposite order). *)
Theorem getMinCost_reverse dims :
  valid 1 dims → costs_below (INT_MAX + 1) dims = true →
  getMinCost (run (reverse dims)) = getMinCost (run dims).
Proof.
  intros [Hlen Hpos] Hfit. unfold getMinCost.
  rewrite !n_run, length_reverse.
  rewrite (run_m_opt dims Hpos Hfit) by lia.
  rewrite (run_m_opt (reverse dims) (positive_reverse _ Hpos)
             (costs_below_reverse _ _ Hfit))
    by (rewrite ?length_reverse; lia).
  rewrite (opt_reverse dims (length dims - 1)) by lia.
  f_equal; lia.
Qed.

Lemma getMinCost_reverse_witness :
  getMinCost (run (reverse [10; 20; 30; 40; 30]))
  = getMinCost (run [10; 20; 30; 40; 30]).
Proof.
  apply (getMinCost_reverse [10; 20; 30; 40; 30]).
  - valid_dims.
  - vm_compute. reflexivity.
Defined.

(** ** A chain of one matrix *)

(** X16: for a chain of one matrix, whatever its two dimensions,
    computeOptimalOrder leaves both tables as the constructor made them (its
    only store, m[1][1] = 0, writes the value that is there): getMinCost
    returns 0, printOptimalParenthesis(1, n) writes A1, and the file that
    saveToFile writes gives the cost 0, the text A1 and the Catalan number
    1. *)
Theorem single_matrix a b :
  m (run [a; b]) = m (make [a; b])
  ∧ s (run [a; b]) = s (make [a; b])
  ∧ getMinCost (run [a; b]) = 0
  ∧ (∀ fuel out, printOptimalParenthesis (S fuel) (run [a; b]) 1
                   (n (run [a; b])) out = Some (out +:+ "A1"))
  ∧ (∀ fuel filename cout,
       saveToFile (S fuel) (run [a; b]) filename true cout
       = Some (Some (report [a; b] 0 (Leaf 1) 1 1),
               cout +:+ nl +:+ "Results saved to file: " +:+ filename
                    +:+ nl)).
Proof.
  split_and!.
  - reflexivity.
  - reflexivity.
  - reflexivity.
  - intros fuel out. reflexivity.
  - intros fuel filename cout. unfold saveToFile. rewrite P_run, dims_loop.
    change (tget (m (run [a; b])) 1 (n (run [a; b]))) with 0.
    change (n (run [a; b])) with 1%nat.
    rewrite print_S. cbn [Nat.eqb]. cbn [mbind option_bind].
    unfold report. by rewrite !append_assoc.
Qed.
